(** * Pipeline validator: reference check and Kahn cycle detection

    A shallow embedding of [backend/main.py]: the pydantic request models,
    the function [is_dag] (Kahn's algorithm over two insertion-ordered
    dictionaries) and the handler [parse_pipeline], followed by the
    properties of the validator. *)

From Stdlib Require Import String List ZArith Bool Lia Arith.
From Stdlib Require Import Relations ListSet Permutation.
Import ListNotations.

Set Implicit Arguments.
Set Warnings "-register-all".

(** ** Python values and exceptions *)

(** A Python [float], kept as the bit pattern of the IEEE-754 double: the
    validator stores and returns positions and never computes on them. *)
Inductive float64 : Type :=
| Float64 (bits : Z).

(** The values a JSON body gives to a field typed [Any]. *)
Inductive pyval : Type :=
| PyNone
| PyBool (b : bool)
| PyInt (z : Z)
| PyFloat (f : float64)
| PyStr (s : string)
| PyList (l : list pyval)
| PyDict (d : list (string * pyval)).

(** The exceptions the module can raise: a failed subscript and FastAPI's
    [HTTPException(status_code, detail)]. *)
Inductive exn : Type :=
| KeyError (key : string)
| HTTPException (status_code : Z) (detail : string).

(** Result of running a piece of the program: a value, a raised exception,
    or a [while] loop that was still running when the fuel ran out. *)
Inductive outcome (A : Type) : Type :=
| Return (a : A)
| Raise (e : exn)
| OutOfFuel.

Arguments Return {A} a.
Arguments Raise {A} e.
Arguments OutOfFuel {A}.

Definition bind {A B : Type} (m : outcome A) (k : A -> outcome B) : outcome B :=
  match m with
  | Return a => k a
  | Raise e => Raise e
  | OutOfFuel => OutOfFuel
  end.

Notation "x <- m ;; k" := (bind m (fun x => k))
  (at level 61, m at next level, right associativity).
Notation "' p <- m ;; k" := (bind m (fun x => match x with p => k end))
  (at level 61, p pattern, m at next level, right associativity).

(** A [for] loop whose body may raise. *)
Fixpoint foldM {A B : Type} (f : A -> B -> outcome A) (l : list B) (a : A)
  : outcome A :=
  match l with
  | [] => Return a
  | x :: l' => a' <- f a x ;; foldM f l' a'
  end.

(** [len(l)] as a Python integer. *)
Definition len {A : Type} (l : list A) : Z := Z.of_nat (length l).

(** ** Python dictionaries with string keys

    A [dict] iterates in insertion order, and assigning to a key that is
    already present keeps its place: an association list with one entry per
    key. *)
Module Dict.

Definition t (V : Type) : Type := list (string * V).

Definition empty {V : Type} : t V := [].

Fixpoint get {V : Type} (d : t V) (k : string) : option V :=
  match d with
  | [] => None
  | (k', v) :: d' => if String.eqb k k' then Some v else get d' k
  end.

(** [k in d] *)
Definition contains {V : Type} (d : t V) (k : string) : bool :=
  match get d k with
  | Some _ => true
  | None => false
  end.

(** [d[k] = v] *)
Fixpoint set {V : Type} (d : t V) (k : string) (v : V) : t V :=
  match d with
  | [] => [(k, v)]
  | (k', v') :: d' =>
      if String.eqb k k' then (k', v) :: d' else (k', v') :: set d' k v
  end.

(** [d[k]] *)
Definition getitem {V : Type} (d : t V) (k : string) : outcome V :=
  match get d k with
  | Some v => Return v
  | None => Raise (KeyError k)
  end.

(** [d.get(k, default)] *)
Definition get_default {V : Type} (d : t V) (k : string) (default : V) : V :=
  match get d k with
  | Some v => v
  | None => default
  end.

(** [d.items()] *)
Definition items {V : Type} (d : t V) : list (string * V) := d.

Definition keys {V : Type} (d : t V) : list string := map fst d.

End Dict.

(** ** The request models *)

Record Node : Type := {
  node_id : string;
  node_type : string;
  position : Dict.t float64;
  data : Dict.t pyval
}.

Record Edge : Type := {
  edge_id : string;
  source : string;
  target : string;
  sourceHandle : option string;
  targetHandle : option string
}.

Record PipelineRequest : Type := {
  nodes : list Node;
  edges : list Edge
}.

(** ** [is_dag] *)

(** The two dictionaries [graph] and [in_degree]. *)
Definition tables : Type := (Dict.t (list string) * Dict.t Z)%type.

(** Body of [for node in nodes]. *)
Definition init_node (st : tables) (node : Node) : tables :=
  let '(graph, in_degree) := st in
  (Dict.set graph (node_id node) [], Dict.set in_degree (node_id node) 0%Z).

(** Body of [for edge in edges]. *)
Definition add_edge (st : tables) (edge : Edge) : outcome tables :=
  let '(graph, in_degree) := st in
  if Dict.contains graph (source edge) && Dict.contains graph (target edge)
  then
    successors <- Dict.getitem graph (source edge) ;;
    Return (Dict.set graph (source edge) (successors ++ [target edge]),
            Dict.set in_degree (target edge)
              (Dict.get_default in_degree (target edge) 0 + 1)%Z)
  else Return st.

(** Body of [for neighbor in graph.get(node_id, [])]. *)
Definition relax (st : Dict.t Z * list string) (neighbor : string)
  : outcome (Dict.t Z * list string) :=
  let '(in_degree, queue) := st in
  if Dict.contains in_degree neighbor then
    d <- Dict.getitem in_degree neighbor ;;
    let in_degree := Dict.set in_degree neighbor (d - 1)%Z in
    d' <- Dict.getitem in_degree neighbor ;;
    if (d' =? 0)%Z then Return (in_degree, queue ++ [neighbor])
    else Return (in_degree, queue)
  else Return st.

(** [while queue:], one unit of fuel per iteration; the result is the final
    [visited_count]. *)
Fixpoint kahn_loop (fuel : nat) (graph : Dict.t (list string))
    (in_degree : Dict.t Z) (queue : list string) (visited_count : Z)
  : outcome Z :=
  match queue with
  | [] => Return visited_count
  | node_id :: queue =>
      match fuel with
      | O => OutOfFuel
      | S fuel =>
          '(in_degree, queue) <-
            foldM relax (Dict.get_default graph node_id [])
              (in_degree, queue) ;;
          kahn_loop fuel graph in_degree queue (visited_count + 1)%Z
      end
  end.

(** [[node_id for node_id, degree in in_degree.items() if degree == 0]] *)
Definition zero_in_degree (in_degree : Dict.t Z) : list string :=
  map fst (filter (fun item => (snd item =? 0)%Z) (Dict.items in_degree)).

(** Lines 47-76: build the tables, run the worklist and return
    [visited_count]. *)
Definition count_visited (fuel : nat) (nodes : list Node) (edges : list Edge)
  : outcome Z :=
  let st := fold_left init_node nodes (Dict.empty, Dict.empty) in
  '(graph, in_degree) <- foldM add_edge edges st ;;
  let queue := zero_in_degree in_degree in
  kahn_loop fuel graph in_degree queue 0%Z.

Definition is_dag_fuel (fuel : nat) (nodes : list Node) (edges : list Edge)
  : outcome bool :=
  if (len nodes =? 0)%Z then Return true
  else if (len edges =? 0)%Z then Return true
  else
    visited_count <- count_visited fuel nodes edges ;;
    Return (visited_count =? len nodes)%Z.

(** [is_dag]: the loop is given one unit of fuel per submitted node, which
    [is_dag_fuel_returns] and [distinct_ids_le] below show is enough for it
    to run to its end. *)
Definition is_dag (nodes : list Node) (edges : list Edge) : outcome bool :=
  is_dag_fuel (length nodes) nodes edges.

(** ** [parse_pipeline] *)

(** [{node.id for node in request.nodes}] *)
Definition node_id_set (nodes : list Node) : set string :=
  fold_left (fun s node => set_add string_dec (node_id node) s) nodes
    (empty_set string).

Definition source_error (edge : Edge) : exn :=
  HTTPException 400
    ("Edge references non-existent source node: " ++ source edge)%string.

Definition target_error (edge : Edge) : exn :=
  HTTPException 400
    ("Edge references non-existent target node: " ++ target edge)%string.

(** Lines 87-97: the reference check. *)
Fixpoint check_references (node_ids : set string) (edges : list Edge)
  : outcome unit :=
  match edges with
  | [] => Return tt
  | edge :: rest =>
      if negb (set_mem string_dec (source edge) node_ids)
      then Raise (source_error edge)
      else if negb (set_mem string_dec (target edge) node_ids)
      then Raise (target_error edge)
      else check_references node_ids rest
  end.

(** pydantic's [.dict()] on the two models. *)
Definition Node_dict (node : Node) : pyval :=
  PyDict [("id", PyStr (node_id node));
          ("type", PyStr (node_type node));
          ("position",
            PyDict (map (fun kv => (fst kv, PyFloat (snd kv)))
                      (position node)));
          ("data", PyDict (data node))]%string.

Definition handle_value (h : option string) : pyval :=
  match h with
  | Some s => PyStr s
  | None => PyNone
  end.

Definition Edge_dict (edge : Edge) : pyval :=
  PyDict [("id", PyStr (edge_id edge));
          ("source", PyStr (source edge));
          ("target", PyStr (target edge));
          ("sourceHandle", handle_value (sourceHandle edge));
          ("targetHandle", handle_value (targetHandle edge))]%string.

(** The dictionary returned on success, one field per key. *)
Record Response : Type := {
  resp_status : string;
  resp_nodes_count : Z;
  resp_edges_count : Z;
  resp_is_dag : bool;
  resp_nodes : list pyval;
  resp_edges : list pyval
}.

(** The body of the [try] block. *)
Definition parse_pipeline_body (request : PipelineRequest) : outcome Response :=
  let node_ids := node_id_set (nodes request) in
  _ <- check_references node_ids (edges request) ;;
  is_dag_result <- is_dag (nodes request) (edges request) ;;
  Return {| resp_status := "parsed";
            resp_nodes_count := len (nodes request);
            resp_edges_count := len (edges request);
            resp_is_dag := is_dag_result;
            resp_nodes := map Node_dict (nodes request);
            resp_edges := map Edge_dict (edges request) |}.

(** [str(e)] for the exceptions of this module; a [KeyError] prints the
    [repr] of its key, written here for keys that need no escaping. *)
Definition str_exn (e : exn) : string :=
  match e with
  | KeyError k => ("'" ++ k ++ "'")%string
  | HTTPException _ detail => detail
  end.

(** The handler with its two [except] clauses. *)
Definition parse_pipeline (request : PipelineRequest) : outcome Response :=
  match parse_pipeline_body request with
  | Raise (HTTPException status_code detail) =>
      Raise (HTTPException status_code detail)
  | Raise e =>
      Raise (HTTPException 500 ("Error parsing pipeline: " ++ str_exn e)%string)
  | r => r
  end.

(** ** The graph of a request *)

(** [u -> v]: some submitted edge goes from [u] to [v]. *)
Definition edge_rel (edges : list Edge) (u v : string) : Prop :=
  exists e, In e edges /\ source e = u /\ target e = v.

(** The edges that [is_dag] keeps: both endpoints are node identifiers. *)
Definition kept_rel (nodes : list Node) (edges : list Edge) (u v : string)
  : Prop :=
  edge_rel edges u v /\ In u (map node_id nodes) /\ In v (map node_id nodes).

(** No directed cycle: no identifier reaches itself along one or more edges. *)
Definition acyclic (R : string -> string -> Prop) : Prop :=
  forall v, ~ clos_trans string R v v.

(** An edge whose two endpoints are submitted nodes. *)
Definition edge_ok (nodes : list Node) (e : Edge) : Prop :=
  In (source e) (map node_id nodes) /\ In (target e) (map node_id nodes).

(** The error raised for an edge that fails the check: the source is
    examined first. *)
Definition edge_error (nodes : list Node) (e : Edge) : exn :=
  if in_dec string_dec (source e) (map node_id nodes)
  then target_error e else source_error e.

(** Every edge passes the reference check. *)
Definition references_ok (nodes : list Node) (edges : list Edge) : Prop :=
  forall e, In e edges -> edge_ok nodes e.

(** Number of distinct node identifiers. *)
Definition distinct_ids (nodes : list Node) : nat :=
  length (nodup string_dec (map node_id nodes)).

(** Test data. *)
Definition mk_node (i : string) : Node :=
  {| node_id := i; node_type := "text"; position := []; data := [] |}.

Definition mk_edge (s t : string) : Edge :=
  {| edge_id := (s ++ "-" ++ t)%string; source := s; target := t;
     sourceHandle := None; targetHandle := None |}.

Definition llm_node : Node :=
  {| node_id := "A"; node_type := "llm";
     position := [("x"%string, Float64 4607182418800017408)];
     data := [("model"%string, PyStr "m1"); ("retries"%string, PyInt 3)] |}.

Definition handle_edge : Edge :=
  {| edge_id := "e1"; source := "A"; target := "B";
     sourceHandle := Some "out"%string; targetHandle := None |}.

Definition plain_request : PipelineRequest :=
  {| nodes := [mk_node "A"; mk_node "B"; mk_node "C"];
     edges := [mk_edge "A" "B"; mk_edge "B" "C"] |}.

(** Same identifiers and endpoints as [plain_request], other fields
    changed. *)
Definition styled_request : PipelineRequest :=
  {| nodes := [llm_node; mk_node "B";
               {| node_id := "C"; node_type := "output";
                  position := [("y"%string, Float64 0)]; data := [] |}];
     edges := [handle_edge;
               {| edge_id := "e2"; source := "B"; target := "C";
                  sourceHandle := None; targetHandle := Some "in"%string |}] |}.

(** ** Quantities used by the loop invariant *)

(** Successor list of [s] in the adjacency table. *)
Definition successors_of (graph : Dict.t (list string)) (s : string)
  : list string :=
  Dict.get_default graph s [].

(** Number of entries equal to [t] in the successor lists of the
    identifiers of [todo]. *)
Definition pending (graph : Dict.t (list string)) (todo : list string)
    (t : string) : nat :=
  list_sum (map (fun s => count_occ string_dec (successors_of graph s) t) todo).

(** The relation stored in the adjacency table. *)
Definition graph_rel (graph : Dict.t (list string)) (s t : string) : Prop :=
  In t (successors_of graph s).

(** State of the tables while the node loop runs: same keys in both, every
    adjacency list empty, every in-degree zero. *)
Definition fresh (graph : Dict.t (list string)) (in_degree : Dict.t Z) : Prop :=
  Dict.keys graph = Dict.keys in_degree /\
  NoDup (Dict.keys graph) /\
  (forall k l, Dict.get graph k = Some l -> l = []) /\
  (forall k z, Dict.get in_degree k = Some z -> z = 0%Z).

(** State of the tables after the edges [done] were processed: the keys are
    [K], the in-degree of a key counts its entries in the adjacency lists,
    and the adjacency lists hold the edges of [done] that join two keys. *)
Definition built (graph : Dict.t (list string)) (in_degree : Dict.t Z)
    (K : list string) (done : list Edge) : Prop :=
  Dict.keys graph = K /\ Dict.keys in_degree = K /\ NoDup K /\
  (forall t, In t K ->
     Dict.get in_degree t = Some (Z.of_nat (pending graph K t))) /\
  (forall s t, graph_rel graph s t <->
     (edge_rel done s t /\ In s K /\ In t K)).

(** Invariant of the worklist, seen from inside the [for] loop over the
    successors [rest] that are still to be relaxed.  [todo] lists the keys
    that were not popped yet.  The in-degree of a key counts its entries in
    the adjacency lists of [todo] and in [rest]; a popped key has in-degree
    zero; the queue holds the keys of [todo] of in-degree zero; and a key of
    in-degree zero lies on no cycle. *)
Definition relax_inv (graph : Dict.t (list string)) (K todo rest : list string)
    (in_degree : Dict.t Z) (queue : list string) : Prop :=
  Dict.keys in_degree = K /\
  NoDup todo /\ incl todo K /\ NoDup queue /\
  (forall t, In t queue <->
     In t todo /\ Dict.get in_degree t = Some 0%Z) /\
  (forall t, In t K ->
     Dict.get in_degree t =
       Some (Z.of_nat (pending graph todo t + count_occ string_dec rest t))) /\
  (forall t, In t K -> ~ In t todo -> Dict.get in_degree t = Some 0%Z) /\
  (forall t, In t K -> Dict.get in_degree t = Some 0%Z ->
     ~ clos_trans string (graph_rel graph) t t).

(** The invariant at the head of the [while] loop. *)
Definition loop_inv (graph : Dict.t (list string)) (K todo : list string)
    (in_degree : Dict.t Z) (queue : list string) : Prop :=
  relax_inv graph K todo [] in_degree queue.

(** [walk R l]: each element of [l] is related to the next one. *)
Inductive walk (R : string -> string -> Prop) : list string -> Prop :=
| walk_one x : walk R [x]
| walk_cons x y l : R x y -> walk R (y :: l) -> walk R (x :: y :: l).

(** ** Quantities used to describe the tables and the visit count *)

(** Lines 46-59 on their own: the two tables after the node loop and the
    edge loop. *)
Definition build_tables (nodes : list Node) (edges : list Edge)
  : outcome tables :=
  foldM add_edge edges (fold_left init_node nodes (Dict.empty, Dict.empty)).

(** Decision of [edge_ok]. *)
Definition edge_okb (nodes : list Node) (e : Edge) : bool :=
  if in_dec string_dec (source e) (map node_id nodes)
  then if in_dec string_dec (target e) (map node_id nodes)
       then true else false
  else false.

(** The edges that join two submitted nodes, in the order of the request. *)
Definition kept_edges (nodes : list Node) (edges : list Edge) : list Edge :=
  filter (edge_okb nodes) edges.

(** Targets of the kept edges that leave [s], in the order of the request. *)
Definition targets_from (nodes : list Node) (edges : list Edge) (s : string)
  : list string :=
  map target (filter (fun e => String.eqb (source e) s)
                (kept_edges nodes edges)).

(** Number of kept edges that enter [t]. *)
Definition edges_into (nodes : list Node) (edges : list Edge) (t : string)
  : nat :=
  length (filter (fun e => String.eqb (target e) t) (kept_edges nodes edges)).

(** [t] lies on a cycle of [R] or can be reached from one. *)
Definition downstream_of_cycle (R : string -> string -> Prop) (t : string)
  : Prop :=
  exists c, clos_trans string R c c /\ clos_refl_trans string R c t.

(** The worklist loop once more, returning the identifiers in the order in
    which [queue.pop(0)] yields them; [kahn_loop] returns their number
    ([kahn_loop_counts_order]). *)
Fixpoint kahn_order (fuel : nat) (graph : Dict.t (list string))
    (in_degree : Dict.t Z) (queue : list string) : outcome (list string) :=
  match queue with
  | [] => Return []
  | node_id :: queue =>
      match fuel with
      | O => OutOfFuel
      | S fuel =>
          '(in_degree, queue) <-
            foldM relax (Dict.get_default graph node_id [])
              (in_degree, queue) ;;
          rest <- kahn_order fuel graph in_degree queue ;;
          Return (node_id :: rest)
      end
  end.

(** The identifiers visited on a request, in the order of their visit. *)
Definition visit_order (fuel : nat) (nodes : list Node) (edges : list Edge)
  : outcome (list string) :=
  '(graph, in_degree) <- build_tables nodes edges ;;
  kahn_order fuel graph in_degree (zero_in_degree in_degree).

(** ** The same program over a store of mutable objects

    The lists of a request, the two dictionaries, the adjacency lists, the
    set of identifiers and the queue are Python objects that the source
    reads and mutates in place.  Here they are cells of a store, named by
    their address; the functions below are the source once more, statement
    by statement, with every object access a [load] or a [store]. *)
Module Stateful.

Definition addr : Type := nat.

Inductive cell : Type :=
| NodeList (items : list Node)
| EdgeList (items : list Edge)
| StrList (items : list string)
| StrSet (items : set string)
| ListDict (d : Dict.t addr)
| IntDict (d : Dict.t Z).

Definition heap : Type := list cell.

(** Result of a run from a store: an outcome and the store it leaves, or
    [Stuck] when an address does not hold an object of the expected kind. *)
Inductive run (A : Type) : Type :=
| Ran (o : outcome A) (h : heap)
| Stuck.

Arguments Ran {A} o h.
Arguments Stuck {A}.

Definition M (A : Type) : Type := heap -> run A.

Definition ret {A : Type} (a : A) : M A := fun h => Ran (Return a) h.

Definition raise {A : Type} (e : exn) : M A := fun h => Ran (Raise e) h.

Definition out_of_fuel {A : Type} : M A := fun h => Ran OutOfFuel h.

Definition stuck {A : Type} : M A := fun _ => Stuck.

(** An operation on values that may raise, such as a subscript. *)
Definition lift {A : Type} (o : outcome A) : M A := fun h => Ran o h.

Definition bindM {A B : Type} (m : M A) (k : A -> M B) : M B :=
  fun h =>
    match m h with
    | Ran (Return a) h' => k a h'
    | Ran (Raise e) h' => Ran (Raise e) h'
    | Ran OutOfFuel h' => Ran OutOfFuel h'
    | Stuck => Stuck
    end.

Notation "x <~ m ;; k" := (bindM m (fun x => k))
  (at level 61, m at next level, right associativity).

Fixpoint update (h : heap) (a : addr) (c : cell) : heap :=
  match h, a with
  | [], _ => []
  | _ :: h', O => c :: h'
  | x :: h', S a' => x :: update h' a' c
  end.

(** A new object, at the next free address. *)
Definition alloc (c : cell) : M addr :=
  fun h => Ran (Return (length h)) (h ++ [c]).

Definition load (a : addr) : M cell :=
  fun h =>
    match nth_error h a with
    | Some c => Ran (Return c) h
    | None => Stuck
    end.

Definition store (a : addr) (c : cell) : M unit :=
  fun h => if a <? length h then Ran (Return tt) (update h a c) else Stuck.

Definition load_nodes (a : addr) : M (list Node) :=
  c <~ load a ;; match c with NodeList l => ret l | _ => stuck end.

Definition load_edges (a : addr) : M (list Edge) :=
  c <~ load a ;; match c with EdgeList l => ret l | _ => stuck end.

Definition load_strs (a : addr) : M (list string) :=
  c <~ load a ;; match c with StrList l => ret l | _ => stuck end.

Definition load_set (a : addr) : M (set string) :=
  c <~ load a ;; match c with StrSet s => ret s | _ => stuck end.

Definition load_list_dict (a : addr) : M (Dict.t addr) :=
  c <~ load a ;; match c with ListDict d => ret d | _ => stuck end.

Definition load_int_dict (a : addr) : M (Dict.t Z) :=
  c <~ load a ;; match c with IntDict d => ret d | _ => stuck end.

(** A [for] loop over the items read from a list that its body does not
    write. *)
Fixpoint for_each {A : Type} (body : A -> M unit) (l : list A) : M unit :=
  match l with
  | [] => ret tt
  | x :: l' => _ <~ body x ;; for_each body l'
  end.

(** [graph[node.id] = []; in_degree[node.id] = 0] *)
Definition init_node (graph in_degree : addr) (node : Node) : M unit :=
  fresh <~ alloc (StrList []) ;;
  g <~ load_list_dict graph ;;
  _ <~ store graph (ListDict (Dict.set g (node_id node) fresh)) ;;
  d <~ load_int_dict in_degree ;;
  store in_degree (IntDict (Dict.set d (node_id node) 0%Z)).

(** Lines 57-59; [append] writes the list object that the dictionary refers
    to. *)
Definition add_edge (graph in_degree : addr) (edge : Edge) : M unit :=
  g <~ load_list_dict graph ;;
  if Dict.contains g (source edge) && Dict.contains g (target edge)
  then
    successors <~ lift (Dict.getitem g (source edge)) ;;
    items <~ load_strs successors ;;
    _ <~ store successors (StrList (items ++ [target edge])) ;;
    d <~ load_int_dict in_degree ;;
    store in_degree
      (IntDict (Dict.set d (target edge)
                  (Dict.get_default d (target edge) 0 + 1)%Z))
  else ret tt.

(** Lines 72-75. *)
Definition relax (in_degree queue : addr) (neighbor : string) : M unit :=
  d <~ load_int_dict in_degree ;;
  if Dict.contains d neighbor then
    v <~ lift (Dict.getitem d neighbor) ;;
    _ <~ store in_degree (IntDict (Dict.set d neighbor (v - 1)%Z)) ;;
    d <~ load_int_dict in_degree ;;
    v' <~ lift (Dict.getitem d neighbor) ;;
    if (v' =? 0)%Z then
      q <~ load_strs queue ;;
      store queue (StrList (q ++ [neighbor]))
    else ret tt
  else ret tt.

(** Lines 66-75; [queue.pop(0)] writes the queue, and the default of
    [graph.get(node_id, [])] is a new empty list. *)
Fixpoint kahn_loop (fuel : nat) (graph in_degree queue : addr)
    (visited_count : Z) : M Z :=
  q <~ load_strs queue ;;
  match q with
  | [] => ret visited_count
  | node_id :: rest =>
      match fuel with
      | O => out_of_fuel
      | S fuel =>
          _ <~ store queue (StrList rest) ;;
          default <~ alloc (StrList []) ;;
          g <~ load_list_dict graph ;;
          neighbors <~ load_strs (Dict.get_default g node_id default) ;;
          _ <~ for_each (relax in_degree queue) neighbors ;;
          kahn_loop fuel graph in_degree queue (visited_count + 1)%Z
      end
  end.

(** [is_dag(nodes, edges)] on the addresses of the two lists; the loop gets
    one unit of fuel per node, as in [is_dag] above. *)
Definition is_dag (nodes edges : addr) : M bool :=
  ns <~ load_nodes nodes ;;
  if (len ns =? 0)%Z then ret true
  else
    es <~ load_edges edges ;;
    if (len es =? 0)%Z then ret true
    else
      graph <~ alloc (ListDict Dict.empty) ;;
      in_degree <~ alloc (IntDict Dict.empty) ;;
      ns <~ load_nodes nodes ;;
      _ <~ for_each (init_node graph in_degree) ns ;;
      es <~ load_edges edges ;;
      _ <~ for_each (add_edge graph in_degree) es ;;
      d <~ load_int_dict in_degree ;;
      queue <~ alloc (StrList (zero_in_degree d)) ;;
      visited_count <~ kahn_loop (length ns) graph in_degree queue 0%Z ;;
      ns <~ load_nodes nodes ;;
      ret (visited_count =? len ns)%Z.

(** The request object: its two attributes refer to the submitted lists. *)
Record request_ref : Type := {
  nodes_ref : addr;
  edges_ref : addr
}.

(** Lines 88-97 for one edge. *)
Definition check_edge (node_ids : addr) (edge : Edge) : M unit :=
  ids <~ load_set node_ids ;;
  if negb (set_mem string_dec (source edge) ids)
  then raise (source_error edge)
  else
    ids <~ load_set node_ids ;;
    if negb (set_mem string_dec (target edge) ids)
    then raise (target_error edge)
    else ret tt.

Definition parse_pipeline_body (request : request_ref) : M Response :=
  ns <~ load_nodes (nodes_ref request) ;;
  node_ids <~ alloc (StrSet (node_id_set ns)) ;;
  es <~ load_edges (edges_ref request) ;;
  _ <~ for_each (check_edge node_ids) es ;;
  is_dag_result <~ is_dag (nodes_ref request) (edges_ref request) ;;
  ns <~ load_nodes (nodes_ref request) ;;
  es <~ load_edges (edges_ref request) ;;
  ret {| resp_status := "parsed";
         resp_nodes_count := len ns;
         resp_edges_count := len es;
         resp_is_dag := is_dag_result;
         resp_nodes := map Node_dict ns;
         resp_edges := map Edge_dict es |}.

Definition parse_pipeline (request : request_ref) : M Response :=
  fun h =>
    match parse_pipeline_body request h with
    | Ran (Raise (HTTPException status_code detail)) h' =>
        Ran (Raise (HTTPException status_code detail)) h'
    | Ran (Raise e) h' =>
        Ran (Raise (HTTPException 500
                      ("Error parsing pipeline: " ++ str_exn e)%string)) h'
    | r => r
    end.

(** The request [request] is stored at [r] in [h]. *)
Definition holds (h : heap) (r : request_ref) (request : PipelineRequest)
  : Prop :=
  nth_error h (nodes_ref r) = Some (NodeList (nodes request)) /\
  nth_error h (edges_ref r) = Some (EdgeList (edges request)).

(** [h'] has every object of [h] below address [n], unchanged. *)
Definition frame (n : nat) (h h' : heap) : Prop :=
  length h <= length h' /\
  forall a, a < n -> nth_error h' a = nth_error h a.

(** The adjacency table [g] is stored at [ga]: the dictionary [gd] there
    gives each key the address of its own list. *)
Definition graph_at (n : nat) (h : heap) (ga : addr) (gd : Dict.t addr)
    (g : Dict.t (list string)) : Prop :=
  n <= ga /\
  nth_error h ga = Some (ListDict gd) /\
  Dict.keys gd = Dict.keys g /\
  (forall k a, Dict.get gd k = Some a ->
     n <= a /\ a <> ga /\
     exists l, Dict.get g k = Some l /\ nth_error h a = Some (StrList l)) /\
  (forall k k' a, Dict.get gd k = Some a -> Dict.get gd k' = Some a -> k = k').

(** The address [a] is not one of the objects of the adjacency table. *)
Definition outside (ga : addr) (gd : Dict.t addr) (a : addr) : Prop :=
  a <> ga /\ forall k, Dict.get gd k <> Some a.

Definition tables_at (n : nat) (h : heap) (ga da : addr) (gd : Dict.t addr)
    (g : Dict.t (list string)) (deg : Dict.t Z) : Prop :=
  graph_at n h ga gd g /\
  n <= da /\ outside ga gd da /\ nth_error h da = Some (IntDict deg).

Definition work_at (n : nat) (h : heap) (ga da qa : addr) (gd : Dict.t addr)
    (g : Dict.t (list string)) (deg : Dict.t Z) (q : list string) : Prop :=
  tables_at n h ga da gd g deg /\
  n <= qa /\ outside ga gd qa /\ qa <> da /\
  nth_error h qa = Some (StrList q).

End Stateful.

(** ** Dictionaries *)

Module DictFacts.

Lemma get_set_same {V : Type} (d : Dict.t V) k v :
  Dict.get (Dict.set d k v) k = Some v.
Proof.
  induction d as [|[k' v'] d IH]; simpl.
  - now rewrite String.eqb_refl.
  - destruct (String.eqb_spec k k') as [->|Hne]; simpl.
    + now rewrite String.eqb_refl.
    + apply String.eqb_neq in Hne. now rewrite Hne.
Qed.

Lemma get_set_other {V : Type} (d : Dict.t V) k k' v :
  k <> k' -> Dict.get (Dict.set d k v) k' = Dict.get d k'.
Proof.
  intros Hne. induction d as [|[k0 v0] d IH]; simpl.
  - apply not_eq_sym, String.eqb_neq in Hne. now rewrite Hne.
  - destruct (String.eqb_spec k k0) as [->|Hk]; simpl.
    + apply not_eq_sym, String.eqb_neq in Hne. now rewrite Hne.
    + now rewrite IH.
Qed.

Lemma get_None {V : Type} (d : Dict.t V) k :
  Dict.get d k = None <-> ~ In k (Dict.keys d).
Proof.
  induction d as [|[k' v'] d IH]; simpl.
  - tauto.
  - destruct (String.eqb_spec k k') as [->|Hne].
    + split; [discriminate | intros H; exfalso; apply H; now left].
    + rewrite IH. split; [intros H [E|I]; [now subst | tauto] | tauto].
Qed.

Lemma get_Some_in {V : Type} (d : Dict.t V) k v :
  Dict.get d k = Some v -> In k (Dict.keys d).
Proof.
  intros H. destruct (in_dec string_dec k (Dict.keys d)) as [I|N]; auto.
  apply get_None in N. congruence.
Qed.

Lemma contains_in {V : Type} (d : Dict.t V) k :
  Dict.contains d k = true <-> In k (Dict.keys d).
Proof.
  unfold Dict.contains. destruct (Dict.get d k) eqn:E.
  - split; auto. intros _. eapply get_Some_in; eauto.
  - apply get_None in E. split; [discriminate | tauto].
Qed.

Lemma in_get {V : Type} (d : Dict.t V) k :
  In k (Dict.keys d) -> exists v, Dict.get d k = Some v.
Proof.
  intros I. destruct (Dict.get d k) eqn:E; eauto.
  apply get_None in E. tauto.
Qed.

Lemma keys_set_in {V : Type} (d : Dict.t V) k v :
  In k (Dict.keys d) -> Dict.keys (Dict.set d k v) = Dict.keys d.
Proof.
  induction d as [|[k' v'] d IH]; simpl; [tauto|].
  intros H. destruct (String.eqb_spec k k') as [->|Hne]; simpl; auto.
  f_equal. apply IH. destruct H; congruence.
Qed.

Lemma keys_set_notin {V : Type} (d : Dict.t V) k v :
  ~ In k (Dict.keys d) -> Dict.keys (Dict.set d k v) = Dict.keys d ++ [k].
Proof.
  induction d as [|[k' v'] d IH]; simpl; auto.
  intros H. destruct (String.eqb_spec k k') as [->|Hne]; simpl.
  - tauto.
  - f_equal. apply IH. tauto.
Qed.

Lemma getitem_contains {V : Type} (d : Dict.t V) k :
  Dict.contains d k = true ->
  exists v, Dict.getitem d k = Return v /\ Dict.get d k = Some v.
Proof.
  unfold Dict.contains, Dict.getitem.
  destruct (Dict.get d k); [eauto | discriminate].
Qed.

End DictFacts.

(** ** Sums over a list of identifiers *)

Section Sums.

Variable f : string -> nat.

Lemma list_sum_map_zero (L : list string) :
  list_sum (map f L) = 0 -> forall s, In s L -> f s = 0.
Proof.
  induction L as [|a L IH]; simpl; [tauto|].
  intros H s [<-|I]; [lia | apply IH; [lia | exact I]].
Qed.

Lemma list_sum_map_pos (L : list string) :
  list_sum (map f L) <> 0 -> exists s, In s L /\ f s <> 0.
Proof.
  induction L as [|a L IH]; simpl; [tauto|].
  intros H. destruct (Nat.eq_dec (f a) 0) as [E|N].
  - destruct IH as (s & I & P); [lia|]. exists s; tauto.
  - exists a; tauto.
Qed.

Lemma list_sum_map_remove (l1 l2 : list string) (u : string) :
  list_sum (map f (l1 ++ u :: l2)) = f u + list_sum (map f (l1 ++ l2)).
Proof.
  rewrite !map_app, !list_sum_app. simpl. lia.
Qed.

Lemma list_sum_map_ext (g : string -> nat) (L : list string) :
  (forall s, In s L -> g s = f s) ->
  list_sum (map g L) = list_sum (map f L).
Proof.
  induction L as [|a L IH]; simpl; intros H; [reflexivity|].
  rewrite H, IH; auto.
Qed.

Lemma list_sum_map_bump (g : string -> nat) (L : list string) s0 c :
  NoDup L -> In s0 L ->
  (forall s, s <> s0 -> g s = f s) -> g s0 = f s0 + c ->
  list_sum (map g L) = list_sum (map f L) + c.
Proof.
  intros ND I Hother Hs0. induction ND as [|a L Ha ND IH]; simpl.
  - destruct I.
  - destruct I as [->|I].
    + rewrite Hs0, (list_sum_map_ext g L); [lia|].
      intros s Hs. apply Hother. intros ->. tauto.
    + rewrite IH by exact I. rewrite Hother; [lia|].
      intros ->. tauto.
Qed.

End Sums.

(** ** Building the tables *)

Lemma NoDup_snoc (l : list string) (k : string) :
  NoDup l -> ~ In k l -> NoDup (l ++ [k]).
Proof.
  intros ND N. induction ND as [|a l Ha ND IH]; simpl.
  - constructor; [tauto | constructor].
  - constructor.
    + rewrite in_app_iff. simpl. intros [I|[E|[]]]; [tauto|].
      subst. apply N. now left.
    + apply IH. intros I. apply N. now right.
Qed.

Lemma keys_set_NoDup {V : Type} (d : Dict.t V) k v :
  NoDup (Dict.keys d) -> NoDup (Dict.keys (Dict.set d k v)).
Proof.
  intros ND. destruct (in_dec string_dec k (Dict.keys d)) as [I|N].
  - now rewrite DictFacts.keys_set_in.
  - rewrite DictFacts.keys_set_notin by exact N. now apply NoDup_snoc.
Qed.

Lemma keys_set_iff {V : Type} (d : Dict.t V) k v x :
  In x (Dict.keys (Dict.set d k v)) <-> In x (Dict.keys d) \/ x = k.
Proof.
  destruct (in_dec string_dec k (Dict.keys d)) as [I|N].
  - rewrite DictFacts.keys_set_in by exact I.
    split; [tauto | intros [H| ->]; auto].
  - rewrite DictFacts.keys_set_notin by exact N.
    rewrite in_app_iff. simpl. intuition.
Qed.

Lemma keys_set_same_keys {V W : Type} (d : Dict.t V) (d' : Dict.t W) k v w :
  Dict.keys d = Dict.keys d' ->
  Dict.keys (Dict.set d k v) = Dict.keys (Dict.set d' k w).
Proof.
  intros E. destruct (in_dec string_dec k (Dict.keys d)) as [I|N].
  - rewrite !DictFacts.keys_set_in; congruence.
  - rewrite !DictFacts.keys_set_notin; congruence.
Qed.

Lemma init_node_fresh graph in_degree node :
  fresh graph in_degree ->
  fresh (fst (init_node (graph, in_degree) node))
        (snd (init_node (graph, in_degree) node)).
Proof.
  intros (HK & ND & HG & HD). simpl. repeat split.
  - now apply keys_set_same_keys.
  - now apply keys_set_NoDup.
  - intros k l. destruct (string_dec (node_id node) k) as [<-|Hne].
    + rewrite DictFacts.get_set_same. congruence.
    + rewrite DictFacts.get_set_other by exact Hne. apply HG.
  - intros k z. destruct (string_dec (node_id node) k) as [<-|Hne].
    + rewrite DictFacts.get_set_same. congruence.
    + rewrite DictFacts.get_set_other by exact Hne. apply HD.
Qed.

Lemma init_nodes_fresh nodes : forall graph in_degree,
  fresh graph in_degree ->
  exists graph' in_degree',
    fold_left init_node nodes (graph, in_degree) = (graph', in_degree') /\
    fresh graph' in_degree' /\
    (forall x, In x (Dict.keys graph') <->
       In x (Dict.keys graph) \/ In x (map node_id nodes)).
Proof.
  induction nodes as [|n nodes IH]; intros graph in_degree F.
  - exists graph, in_degree. simpl. split; [reflexivity|].
    split; [exact F | tauto].
  - pose proof (init_node_fresh n F) as F'. simpl in F'.
    destruct (IH _ _ F') as (g' & d' & E & F'' & HK).
    exists g', d'. split; [exact E|]. split; [exact F''|].
    intros x. rewrite HK, keys_set_iff. simpl. intuition.
Qed.

Lemma successors_of_set_same graph s l :
  successors_of (Dict.set graph s l) s = l.
Proof.
  unfold successors_of, Dict.get_default.
  now rewrite DictFacts.get_set_same.
Qed.

Lemma successors_of_set_other graph s0 s l :
  s0 <> s -> successors_of (Dict.set graph s0 l) s = successors_of graph s.
Proof.
  intros Hne. unfold successors_of, Dict.get_default.
  now rewrite DictFacts.get_set_other.
Qed.

Lemma successors_of_key graph s t :
  In t (successors_of graph s) -> In s (Dict.keys graph).
Proof.
  unfold successors_of, Dict.get_default.
  destruct (Dict.get graph s) eqn:E; [|intros []].
  intros _. eapply DictFacts.get_Some_in; eauto.
Qed.

Lemma edge_rel_snoc done e s t :
  edge_rel (done ++ [e]) s t <->
  edge_rel done s t \/ (source e = s /\ target e = t).
Proof.
  unfold edge_rel. split.
  - intros (e' & I & Hs & Ht). apply in_app_iff in I.
    destruct I as [I|[<-|[]]]; [left; eauto | right; auto].
  - intros [(e' & I & Hs & Ht)|[Hs Ht]].
    + exists e'. rewrite in_app_iff. auto.
    + exists e. rewrite in_app_iff. simpl. auto.
Qed.

Lemma graph_rel_append graph s0 t0 s t :
  graph_rel (Dict.set graph s0 (successors_of graph s0 ++ [t0])) s t <->
  graph_rel graph s t \/ (s0 = s /\ t0 = t).
Proof.
  unfold graph_rel. destruct (string_dec s0 s) as [<-|Hne].
  - rewrite successors_of_set_same, in_app_iff. simpl. tauto.
  - rewrite successors_of_set_other by exact Hne. tauto.
Qed.

Lemma fresh_built graph in_degree :
  fresh graph in_degree -> built graph in_degree (Dict.keys graph) [].
Proof.
  intros (HK & ND & HG & HD).
  assert (Hnil : forall s, successors_of graph s = []).
  { intros s. unfold successors_of, Dict.get_default.
    destruct (Dict.get graph s) eqn:E; [eapply HG; eauto | reflexivity]. }
  split; [reflexivity|]. split; [now symmetry|]. split; [exact ND|]. split.
  - intros t I.
    destruct (DictFacts.in_get graph t I) as (l & _).
    assert (I' : In t (Dict.keys in_degree)) by now rewrite <- HK.
    destruct (DictFacts.in_get _ _ I') as (z & E).
    rewrite E. f_equal. rewrite (HD _ _ E).
    unfold pending. rewrite list_sum_map_ext with (f := fun _ => 0).
    + clear. induction (Dict.keys graph); simpl; auto.
    + intros s _. now rewrite Hnil.
  - intros s t. unfold graph_rel. rewrite Hnil. simpl. split; [tauto|].
    intros ((e & [] & _) & _).
Qed.

Lemma add_edge_built graph in_degree K done e :
  built graph in_degree K done ->
  exists graph' in_degree',
    add_edge (graph, in_degree) e = Return (graph', in_degree') /\
    built graph' in_degree' K (done ++ [e]).
Proof.
  intros (HKg & HKd & ND & HD & HG). unfold add_edge.
  destruct (Dict.contains graph (source e) && Dict.contains graph (target e))
    eqn:C.
  - apply andb_true_iff in C. destruct C as [Cs Ct].
    destruct (DictFacts.getitem_contains _ _ Cs) as (succ & -> & Es).
    simpl. apply DictFacts.contains_in in Cs, Ct. rewrite HKg in Cs, Ct.
    eexists _, _. split; [reflexivity|].
    assert (Hsucc : succ = successors_of graph (source e)).
    { unfold successors_of, Dict.get_default. now rewrite Es. }
    subst succ.
    assert (HP : forall t, pending (Dict.set graph (source e)
                   (successors_of graph (source e) ++ [target e])) K t
                 = pending graph K t +
                   (if string_dec (target e) t then 1 else 0)).
    { intros t. unfold pending.
      apply list_sum_map_bump with (s0 := source e); auto.
      - intros s Hne. rewrite successors_of_set_other; auto.
      - rewrite successors_of_set_same, count_occ_app. simpl.
        destruct (string_dec (target e) t); lia. }
    split; [|split; [|split; [exact ND|split]]].
    + rewrite DictFacts.keys_set_in; congruence.
    + rewrite DictFacts.keys_set_in; congruence.
    + intros t I. rewrite HP.
      destruct (string_dec (target e) t) as [<-|Hne].
      * rewrite DictFacts.get_set_same. f_equal.
        unfold Dict.get_default. rewrite (HD _ Ct). lia.
      * rewrite DictFacts.get_set_other by exact Hne.
        rewrite (HD _ I). f_equal. lia.
    + intros s t. rewrite graph_rel_append, HG, edge_rel_snoc.
      split; [intros [H|[<- <-]]; tauto | tauto].
  - exists graph, in_degree. split; [reflexivity|].
    split; [exact HKg|]. split; [exact HKd|]. split; [exact ND|].
    split; [exact HD|].
    intros s t. rewrite HG, edge_rel_snoc. split; [tauto|].
    intros ([R|[Hs Ht]] & Is & It); [tauto|]. subst s t.
    rewrite <- HKg in Is, It. apply DictFacts.contains_in in Is, It.
    rewrite Is, It in C. discriminate.
Qed.

Lemma add_edges_built edges : forall graph in_degree K done,
  built graph in_degree K done ->
  exists graph' in_degree',
    foldM add_edge edges (graph, in_degree) = Return (graph', in_degree') /\
    built graph' in_degree' K (done ++ edges).
Proof.
  induction edges as [|e edges IH]; intros graph in_degree K done B.
  - exists graph, in_degree. rewrite app_nil_r. split; [reflexivity | exact B].
  - destruct (add_edge_built e B) as (g1 & d1 & E1 & B1).
    destruct (IH _ _ _ _ B1) as (g2 & d2 & E2 & B2).
    exists g2, d2. cbn [foldM]. rewrite E1. cbn [bind]. rewrite E2.
    split; [reflexivity|]. now rewrite <- app_assoc in B2.
Qed.

(** ** Cycles *)

Section Cycles.

Variable R : string -> string -> Prop.

Lemma cycle_pred t :
  clos_trans string R t t -> exists s, R s t /\ clos_trans string R s s.
Proof.
  intros H. apply clos_trans_tn1 in H. inversion H as [? HR|y ? HR Hty]; subst.
  - exists t. split; [exact HR | now apply t_step].
  - exists y. split; [exact HR|].
    apply t_trans with t; [now apply t_step | now apply clos_tn1_trans].
Qed.

Lemma cycle_succ t :
  clos_trans string R t t -> exists s, R t s.
Proof.
  intros H. apply clos_trans_t1n in H. inversion H; eauto.
Qed.

Lemma walk_reach l : forall x z,
  walk R (x :: l) -> In z l -> clos_trans string R x z.
Proof.
  induction l as [|y l IH]; intros x z W I; [destruct I|].
  inversion W as [|x' y' l' HR W']; subst.
  destruct I as [<-|I]; [now apply t_step|].
  apply t_trans with y; [now apply t_step | now apply IH].
Qed.

Lemma walk_tail x l : walk R (x :: l) -> l <> [] -> walk R l.
Proof.
  intros W N. inversion W; subst; [congruence | assumption].
Qed.

Lemma walk_repeat l :
  walk R l -> ~ NoDup l -> exists v, clos_trans string R v v.
Proof.
  induction l as [|x l IH]; intros W N.
  - exfalso. apply N. constructor.
  - destruct (in_dec string_dec x l) as [I|NI].
    + exists x. now apply walk_reach with l.
    + destruct l as [|y l].
      * exfalso. apply N. constructor; [tauto | constructor].
      * apply IH.
        -- apply walk_tail with x; [exact W | discriminate].
        -- intros ND. apply N. now constructor.
Qed.

Lemma walk_extend (U : list string) :
  (forall t, In t U -> exists s, In s U /\ R s t) ->
  forall t0, In t0 U ->
  forall n, exists l, length l = S n /\ walk R l /\ incl l U.
Proof.
  intros Hpred t0 I0 n. induction n as [|n (l & Hlen & W & Hin)].
  - exists [t0]. repeat split; [constructor|].
    intros x [<-|[]]. exact I0.
  - destruct l as [|y l]; [discriminate|].
    destruct (Hpred y) as (x & Ix & Hxy); [apply Hin; now left|].
    exists (x :: y :: l). repeat split.
    + simpl in *. lia.
    + now constructor.
    + intros z [<-|Iz]; [exact Ix | now apply Hin].
Qed.

(** A non-empty finite set in which every element has a predecessor
    contains a cycle. *)
Lemma no_source_cycle (U : list string) :
  U <> [] ->
  (forall t, In t U -> exists s, In s U /\ R s t) ->
  exists v, clos_trans string R v v.
Proof.
  intros N Hpred. destruct U as [|t0 U']; [congruence|].
  destruct (@walk_extend (t0 :: U') Hpred t0 (or_introl eq_refl)
              (length (t0 :: U'))) as (l & Hlen & W & Hin).
  apply walk_repeat with l; [exact W|].
  intros ND. apply (NoDup_incl_length ND) in Hin. lia.
Qed.

End Cycles.

Lemma clos_trans_ext (R1 R2 : string -> string -> Prop) :
  (forall x y, R1 x y -> R2 x y) ->
  forall x y, clos_trans string R1 x y -> clos_trans string R2 x y.
Proof.
  intros H x y C. induction C as [x y HR|x y z _ IH1 _ IH2].
  - apply t_step. auto.
  - now apply t_trans with y.
Qed.

Lemma acyclic_ext (R1 R2 : string -> string -> Prop) :
  (forall x y, R1 x y <-> R2 x y) -> (acyclic R1 <-> acyclic R2).
Proof.
  intros H. unfold acyclic. split; intros A v C; apply (A v);
    revert C; apply clos_trans_ext; intros x y; apply H.
Qed.

(** ** The worklist loop *)

Section Worklist.

Variable graph : Dict.t (list string).
Variable K : list string.
Hypothesis graph_keys : Dict.keys graph = K.

Lemma graph_rel_key s t : graph_rel graph s t -> In s K.
Proof.
  intros H. rewrite <- graph_keys. eapply successors_of_key; exact H.
Qed.

Lemma pending_zero_no_pred todo s t :
  pending graph todo t = 0 -> graph_rel graph s t -> ~ In s todo.
Proof.
  intros Hp Hst I.
  pose proof (list_sum_map_zero _ _ Hp s I) as H0. simpl in H0.
  apply count_occ_not_In in H0. exact (H0 Hst).
Qed.

Lemma relax_step todo v rest in_degree queue :
  relax_inv graph K todo (v :: rest) in_degree queue ->
  exists in_degree' queue',
    relax (in_degree, queue) v = Return (in_degree', queue') /\
    relax_inv graph K todo rest in_degree' queue'.
Proof.
  intros (HKd & NDt & Hincl & NDq & HQ & HC & HE & HG). unfold relax.
  destruct (Dict.contains in_degree v) eqn:C.
  - destruct (DictFacts.getitem_contains _ _ C) as (d & -> & Ed).
    cbn [bind]. apply DictFacts.contains_in in C. rewrite HKd in C.
    unfold Dict.getitem. rewrite DictFacts.get_set_same. cbn [bind].
    pose proof (HC v C) as Hd. rewrite Ed, count_occ_cons_eq in Hd
      by reflexivity.
    injection Hd as Hd.
    assert (Hvq : ~ In v queue).
    { intros I. apply HQ in I. destruct I as [_ I]. rewrite Ed in I.
      injection I. lia. }
    assert (Hvt : In v todo).
    { destruct (in_dec string_dec v todo) as [I|N]; [exact I|].
      exfalso. specialize (HE v C N). rewrite Ed in HE. injection HE. lia. }
    assert (HKd' : Dict.keys (Dict.set in_degree v (d - 1)%Z) = K).
    { rewrite DictFacts.keys_set_in; congruence. }
    assert (HC' : forall t, In t K ->
              Dict.get (Dict.set in_degree v (d - 1)%Z) t =
              Some (Z.of_nat (pending graph todo t
                              + count_occ string_dec rest t))).
    { intros t It. destruct (string_dec v t) as [<-|Hne].
      - rewrite DictFacts.get_set_same. f_equal. lia.
      - rewrite DictFacts.get_set_other by exact Hne.
        rewrite (HC t It), count_occ_cons_neq by exact Hne. reflexivity. }
    assert (HE' : forall t, In t K -> ~ In t todo ->
              Dict.get (Dict.set in_degree v (d - 1)%Z) t = Some 0%Z).
    { intros t It Nt. rewrite DictFacts.get_set_other; [now apply HE|].
      intros ->. tauto. }
    destruct (d - 1 =? 0)%Z eqn:Z0.
    + apply Z.eqb_eq in Z0. eexists _, _. split; [reflexivity|].
      split; [exact HKd'|]. split; [exact NDt|]. split; [exact Hincl|].
      split; [now apply NoDup_snoc|]. split; [|split; [exact HC'|split]].
      * intros t. rewrite in_app_iff. simpl.
        destruct (string_dec v t) as [<-|Hne].
        -- rewrite DictFacts.get_set_same. rewrite Z0. tauto.
        -- rewrite DictFacts.get_set_other by exact Hne. rewrite HQ.
           tauto.
      * exact HE'.
      * intros t It. destruct (string_dec v t) as [<-|Hne].
        -- intros _ Cyc. destruct (cycle_pred Cyc) as (s & Hsv & Cs).
           assert (Is : In s K) by (eapply graph_rel_key; exact Hsv).
           assert (Hp : pending graph todo v = 0) by lia.
           assert (Hst : ~ In s todo)
             by (eapply pending_zero_no_pred; [exact Hp | exact Hsv]).
           exact (HG s Is (HE s Is Hst) Cs).
        -- rewrite DictFacts.get_set_other by exact Hne. now apply HG.
    + apply Z.eqb_neq in Z0. eexists _, _. split; [reflexivity|].
      split; [exact HKd'|]. split; [exact NDt|]. split; [exact Hincl|].
      split; [exact NDq|]. split; [|split; [exact HC'|split]].
      * intros t. destruct (string_dec v t) as [<-|Hne].
        -- rewrite DictFacts.get_set_same. split; [tauto|].
           intros [_ H]. injection H as H. contradiction.
        -- rewrite DictFacts.get_set_other by exact Hne. apply HQ.
      * exact HE'.
      * intros t It. destruct (string_dec v t) as [<-|Hne].
        -- rewrite DictFacts.get_set_same. intros H. injection H as H.
           contradiction.
        -- rewrite DictFacts.get_set_other by exact Hne. now apply HG.
  - exists in_degree, queue. split; [reflexivity|].
    assert (Nv : ~ In v K).
    { rewrite <- HKd. intros I. apply DictFacts.contains_in in I.
      congruence. }
    split; [exact HKd|]. split; [exact NDt|]. split; [exact Hincl|].
    split; [exact NDq|]. split; [exact HQ|]. split; [|split; assumption].
    intros t It. rewrite (HC t It), count_occ_cons_neq; [reflexivity|].
    intros ->. tauto.
Qed.

Lemma relax_all todo rest : forall in_degree queue,
  relax_inv graph K todo rest in_degree queue ->
  exists in_degree' queue',
    foldM relax rest (in_degree, queue) = Return (in_degree', queue') /\
    loop_inv graph K todo in_degree' queue'.
Proof.
  induction rest as [|v rest IH]; intros in_degree queue I.
  - exists in_degree, queue. split; [reflexivity | exact I].
  - destruct (relax_step I) as (d1 & q1 & E1 & I1).
    destruct (IH _ _ I1) as (d2 & q2 & E2 & I2).
    exists d2, q2. cbn [foldM]. rewrite E1. cbn [bind].
    split; [exact E2 | exact I2].
Qed.

Lemma pop_inv todo u queue in_degree :
  loop_inv graph K todo in_degree (u :: queue) ->
  exists todo' : list string,
    length todo = S (length todo') /\
    relax_inv graph K todo' (successors_of graph u) in_degree queue.
Proof.
  intros (HKd & NDt & Hincl & NDq & HQ & HC & HE & HG).
  destruct (proj1 (HQ u) (or_introl eq_refl)) as [Iu Du].
  destruct (in_split _ _ Iu) as (l1 & l2 & ->).
  exists (l1 ++ l2). split; [rewrite !length_app; simpl; lia|].
  pose proof (NoDup_remove_1 _ _ _ NDt) as NDt'.
  pose proof (NoDup_remove_2 _ _ _ NDt) as Nu.
  inversion NDq as [|? ? Nq NDq']; subst.
  assert (Hsub : forall t, In t (l1 ++ u :: l2) <-> t = u \/ In t (l1 ++ l2)).
  { intros t. rewrite !in_app_iff. simpl. intuition. }
  split; [exact HKd|]. split; [exact NDt'|]. split.
  { intros t It. apply Hincl. apply Hsub. now right. }
  split; [exact NDq'|]. split; [|split; [|split]].
  - intros t. split.
    + intros It. destruct (proj1 (HQ t) (or_intror It)) as [It' Dt].
      split; [|exact Dt]. apply Hsub in It'.
      destruct It' as [->|It']; [tauto | exact It'].
    + intros [It Dt].
      destruct (proj2 (HQ t) (conj (proj2 (Hsub t) (or_intror It)) Dt))
        as [<-|I]; [tauto | exact I].
  - intros t It. rewrite (HC t It). f_equal. f_equal. unfold pending.
    rewrite list_sum_map_remove. simpl. lia.
  - intros t It Nt. destruct (string_dec t u) as [->|Hne]; [exact Du|].
    apply HE; [exact It|]. rewrite Hsub. tauto.
  - exact HG.
Qed.

Lemma loop_exit todo in_degree :
  loop_inv graph K todo in_degree [] ->
  (todo = [] <-> acyclic (graph_rel graph)).
Proof.
  intros (HKd & NDt & Hincl & NDq & HQ & HC & HE & HG). split.
  - intros -> v Cyc. destruct (cycle_succ Cyc) as (s & Hvs).
    assert (Iv : In v K) by (eapply graph_rel_key; exact Hvs).
    apply (HG v Iv); [|exact Cyc]. apply HE; [exact Iv | intros []].
  - intros A. destruct todo as [|t0 todo]; [reflexivity|]. exfalso.
    destruct (@no_source_cycle (graph_rel graph) (t0 :: todo))
      as (v & Cyc); [discriminate| |exact (A v Cyc)].
    intros t It.
    assert (Hp : pending graph (t0 :: todo) t <> 0).
    { intros Hp. apply (proj2 (HQ t)). split; [exact It|].
      rewrite (HC t (Hincl t It)), Hp. reflexivity. }
    destruct (list_sum_map_pos _ _ Hp) as (s & Is & Hs).
    exists s. split; [exact Is|]. unfold graph_rel.
    apply (count_occ_In string_dec). lia.
Qed.

Lemma kahn_loop_spec fuel : forall todo in_degree queue visited_count,
  loop_inv graph K todo in_degree queue ->
  length todo <= fuel ->
  exists todo' : list string,
    kahn_loop fuel graph in_degree queue visited_count =
      Return (visited_count + Z.of_nat (length todo)
              - Z.of_nat (length todo'))%Z /\
    length todo' <= length todo /\
    (todo' = [] <-> acyclic (graph_rel graph)).
Proof.
  induction fuel as [|fuel IH]; intros todo in_degree queue visited I Hlen.
  - destruct queue as [|u queue].
    + exists todo. simpl. split; [f_equal; lia|]. split; [lia|].
      eapply loop_exit; exact I.
    + destruct (pop_inv I) as (todo' & Hl & _). lia.
  - destruct queue as [|u queue].
    + exists todo. simpl. split; [f_equal; lia|]. split; [lia|].
      eapply loop_exit; exact I.
    + destruct (pop_inv I) as (todo1 & Hl & I1).
      destruct (relax_all I1) as (d2 & q2 & E2 & I2).
      destruct (IH todo1 d2 q2 (visited + 1)%Z I2) as (todo' & E & Hl' & A);
        [lia|].
      exists todo'. cbn [kahn_loop]. fold (successors_of graph u).
      rewrite E2. cbn [bind]. rewrite E.
      split; [f_equal; lia|]. split; [lia | exact A].
Qed.

End Worklist.

Lemma kahn_loop_more_fuel graph fuel : forall fuel' in_degree queue visited v,
  kahn_loop fuel graph in_degree queue visited = Return v ->
  fuel <= fuel' ->
  kahn_loop fuel' graph in_degree queue visited = Return v.
Proof.
  induction fuel as [|fuel IH]; intros fuel' in_degree queue visited v E Hle.
  - destruct queue; [|discriminate]. destruct fuel'; exact E.
  - destruct queue as [|u queue]; [destruct fuel'; exact E|].
    destruct fuel' as [|fuel']; [lia|]. cbn [kahn_loop] in *.
    destruct (foldM relax (Dict.get_default graph u []) (in_degree, queue))
      as [[d q]| |]; cbn [bind] in *; try discriminate.
    apply IH; [exact E | lia].
Qed.

(** ** From the tables to the verdict *)

Lemma zero_in_degree_spec (d : Dict.t Z) :
  NoDup (Dict.keys d) ->
  NoDup (zero_in_degree d) /\
  (forall t, In t (zero_in_degree d) <-> Dict.get d t = Some 0%Z).
Proof.
  induction d as [|[k v] d IH]; intros ND.
  - split; [constructor|]. simpl. intros t. split; [tauto | discriminate].
  - inversion ND as [|? ? Nk ND']; subst.
    destruct (IH ND') as [IH1 IH2].
    assert (Hk : ~ In k (zero_in_degree d)).
    { intros I. apply IH2, DictFacts.get_Some_in in I. exact (Nk I). }
    unfold zero_in_degree, Dict.items in *. simpl.
    destruct (Z.eqb_spec v 0) as [->|Hv]; simpl.
    + split; [now constructor|]. intros t.
      destruct (String.eqb_spec t k) as [->|Hne];
        [tauto | rewrite IH2; split; [intros [H|H]; congruence | tauto]].
    + split; [exact IH1|]. intros t. rewrite IH2.
      destruct (String.eqb_spec t k) as [->|Hne]; [|tauto].
      split; [|congruence]. intros H.
      apply DictFacts.get_Some_in in H. tauto.
Qed.

Lemma initial_inv graph in_degree K done :
  built graph in_degree K done ->
  loop_inv graph K K in_degree (zero_in_degree in_degree).
Proof.
  intros (HKg & HKd & ND & HD & HG).
  assert (NDd : NoDup (Dict.keys in_degree)) by now rewrite HKd.
  destruct (zero_in_degree_spec _ NDd) as [Z1 Z2].
  split; [exact HKd|]. split; [exact ND|]. split; [apply incl_refl|].
  split; [exact Z1|]. split; [|split; [|split]].
  - intros t. rewrite Z2. split; [|tauto]. intros H. split; [|exact H].
    rewrite <- HKd. eapply DictFacts.get_Some_in; exact H.
  - intros t It. rewrite (HD t It). simpl. now rewrite Nat.add_0_r.
  - tauto.
  - intros t It Dt Cyc. destruct (cycle_pred Cyc) as (s & Hst & _).
    rewrite (HD t It) in Dt. injection Dt as Dt.
    assert (Hp : pending graph K t = 0) by lia.
    eapply pending_zero_no_pred; [exact Hp | exact Hst|].
    eapply graph_rel_key; [exact HKg | exact Hst].
Qed.

Lemma nodup_length_le (l : list string) :
  length (nodup string_dec l) <= length l.
Proof.
  induction l as [|a l IH]; simpl; [lia|].
  destruct (in_dec string_dec a l); simpl; lia.
Qed.

Lemma nodup_length_eq (l : list string) :
  length (nodup string_dec l) = length l <-> NoDup l.
Proof.
  split.
  - induction l as [|a l IH]; simpl; [constructor|].
    pose proof (nodup_length_le l) as Hle.
    destruct (in_dec string_dec a l); simpl; intros H; [lia|].
    constructor; [assumption | apply IH; lia].
  - intros ND. now rewrite nodup_fixed_point.
Qed.

Lemma keys_length (K ids : list string) :
  NoDup K -> (forall x, In x K <-> In x ids) ->
  length K = length (nodup string_dec ids).
Proof.
  intros ND H. apply Nat.le_antisymm.
  - apply NoDup_incl_length; [exact ND|].
    intros x I. apply nodup_In. now apply H.
  - apply NoDup_incl_length; [apply NoDup_nodup|].
    intros x I. apply H. eapply nodup_In; exact I.
Qed.

Lemma tables_built nodes edges :
  exists graph in_degree K,
    foldM add_edge edges (fold_left init_node nodes (Dict.empty, Dict.empty))
      = Return (graph, in_degree) /\
    built graph in_degree K edges /\
    (forall x, In x K <-> In x (map node_id nodes)).
Proof.
  assert (F0 : fresh (@Dict.empty (list string)) (@Dict.empty Z)).
  { repeat split; try constructor; discriminate. }
  destruct (init_nodes_fresh nodes F0) as (g0 & d0 & E0 & F1 & HK).
  destruct (add_edges_built edges (fresh_built F1)) as (g & d & E & B).
  exists g, d, (Dict.keys g0). rewrite E0. split; [exact E|].
  split; [exact B|]. intros x. rewrite HK. simpl. tauto.
Qed.

(** The worklist leaves [r] identifiers unvisited, and [r] is zero exactly
    when the kept edges form no cycle. *)
Lemma count_visited_spec nodes edges :
  exists r : nat,
    r <= distinct_ids nodes /\
    (r = 0 <-> acyclic (kept_rel nodes edges)) /\
    forall fuel, distinct_ids nodes <= fuel ->
      count_visited fuel nodes edges =
        Return (Z.of_nat (distinct_ids nodes) - Z.of_nat r)%Z.
Proof.
  destruct (tables_built nodes edges) as (g & d & K & E & B & HK).
  pose proof (initial_inv B) as I.
  destruct B as (HKg & HKd & ND & HD & HG).
  pose proof (@keys_length K _ ND HK) as HL. fold (distinct_ids nodes) in HL.
  destruct (@kahn_loop_spec g K HKg (distinct_ids nodes) K d
              (zero_in_degree d) 0%Z I) as (todo' & El & Hl & A); [lia|].
  exists (length todo'). split; [lia|]. split.
  - rewrite length_zero_iff_nil, A. apply acyclic_ext.
    intros x y. rewrite HG. unfold kept_rel. rewrite !HK. tauto.
  - intros fuel Hf. unfold count_visited. rewrite E. cbn [bind].
    erewrite kahn_loop_more_fuel; [|exact El|exact Hf]. f_equal. lia.
Qed.

(** The verdict of [is_dag] on a request with at least one node and one
    edge. *)
Lemma is_dag_fuel_spec nodes edges :
  nodes <> [] -> edges <> [] ->
  exists b : bool,
    (b = true <->
       NoDup (map node_id nodes) /\ acyclic (kept_rel nodes edges)) /\
    forall fuel, distinct_ids nodes <= fuel ->
      is_dag_fuel fuel nodes edges = Return b.
Proof.
  intros Hn He.
  destruct (count_visited_spec nodes edges) as (r & Hr & A & E).
  exists (Z.of_nat (distinct_ids nodes) - Z.of_nat r =? len nodes)%Z.
  pose proof (nodup_length_le (map node_id nodes)) as Hle.
  pose proof (nodup_length_eq (map node_id nodes)) as Heq.
  rewrite length_map in Hle, Heq. fold (distinct_ids nodes) in Hle, Heq.
  split.
  - rewrite Z.eqb_eq, <- A, <- Heq. unfold len. lia.
  - intros fuel Hf. unfold is_dag_fuel, len.
    destruct nodes as [|n nodes]; [congruence|].
    destruct edges as [|e edges]; [congruence|].
    cbn [length]. rewrite !(proj2 (Z.eqb_neq _ 0)) by lia.
    rewrite (E fuel Hf). reflexivity.
Qed.

Lemma distinct_ids_le nodes : distinct_ids nodes <= length nodes.
Proof.
  unfold distinct_ids. rewrite <- (length_map node_id nodes).
  apply nodup_length_le.
Qed.

(** [is_dag] always returns a verdict. *)
Lemma is_dag_fuel_returns nodes edges :
  exists b : bool, forall fuel, distinct_ids nodes <= fuel ->
    is_dag_fuel fuel nodes edges = Return b.
Proof.
  destruct nodes as [|n nodes]; [exists true; reflexivity|].
  destruct edges as [|e edges]; [exists true; reflexivity|].
  destruct (@is_dag_fuel_spec (n :: nodes) (e :: edges)) as (b & _ & H);
    [discriminate | discriminate |].
  exists b. exact H.
Qed.

Lemma is_dag_returns nodes edges :
  exists b : bool, is_dag nodes edges = Return b.
Proof.
  destruct (is_dag_fuel_returns nodes edges) as (b & H).
  exists b. apply H, distinct_ids_le.
Qed.

(** ** The reference check *)

Lemma node_id_set_fold nodes : forall (s : set string) x,
  set_In x (fold_left (fun s node => set_add string_dec (node_id node) s)
              nodes s) <->
  set_In x s \/ In x (map node_id nodes).
Proof.
  induction nodes as [|n nodes IH]; intros s x; simpl; [tauto|].
  rewrite IH, set_add_iff. intuition.
Qed.

Lemma node_id_set_mem nodes x :
  set_mem string_dec x (node_id_set nodes) = true <->
  In x (map node_id nodes).
Proof.
  split.
  - intros H. apply set_mem_correct1 in H.
    apply node_id_set_fold in H. destruct H as [[]|H]. exact H.
  - intros H. apply set_mem_correct2. apply node_id_set_fold. now right.
Qed.

Lemma node_id_set_not_mem nodes x :
  set_mem string_dec x (node_id_set nodes) = false <->
  ~ In x (map node_id nodes).
Proof.
  rewrite <- node_id_set_mem.
  destruct (set_mem string_dec x (node_id_set nodes)); split;
    congruence.
Qed.

Lemma edge_ok_dec nodes e : {edge_ok nodes e} + {~ edge_ok nodes e}.
Proof.
  unfold edge_ok.
  destruct (in_dec string_dec (source e) (map node_id nodes));
    destruct (in_dec string_dec (target e) (map node_id nodes)); tauto.
Qed.

Lemma check_references_ok nodes edges :
  (forall e, In e edges -> edge_ok nodes e) ->
  check_references (node_id_set nodes) edges = Return tt.
Proof.
  induction edges as [|e edges IH]; intros H; simpl; [reflexivity|].
  destruct (H e (or_introl eq_refl)) as [Hs Ht].
  apply node_id_set_mem in Hs, Ht. rewrite Hs, Ht. simpl.
  apply IH. intros e' I. apply H. now right.
Qed.

Lemma check_references_first nodes pre e post :
  (forall e', In e' pre -> edge_ok nodes e') ->
  ~ edge_ok nodes e ->
  check_references (node_id_set nodes) (pre ++ e :: post) =
    Raise (edge_error nodes e).
Proof.
  intros Hpre Hbad. induction pre as [|p pre IH]; simpl.
  - unfold edge_error.
    destruct (in_dec string_dec (source e) (map node_id nodes)) as [Is|Ns].
    + assert (Nt : ~ In (target e) (map node_id nodes))
        by (intros It; apply Hbad; split; assumption).
      apply node_id_set_mem in Is. apply node_id_set_not_mem in Nt.
      now rewrite Is, Nt.
    + apply node_id_set_not_mem in Ns. now rewrite Ns.
  - destruct (Hpre p (or_introl eq_refl)) as [Hs Ht].
    apply node_id_set_mem in Hs, Ht. rewrite Hs, Ht. simpl.
    apply IH. intros e' I. apply Hpre. now right.
Qed.

(** A list of edges either passes the check or splits at its first edge with
    a missing endpoint. *)
Lemma first_bad_edge nodes edges :
  (forall e, In e edges -> edge_ok nodes e) \/
  (exists pre e post, edges = pre ++ e :: post /\
     (forall e', In e' pre -> edge_ok nodes e') /\ ~ edge_ok nodes e).
Proof.
  induction edges as [|e edges IH].
  - left. intros e [].
  - destruct (edge_ok_dec nodes e) as [Ok|Bad].
    + destruct IH as [All|(pre & b & post & -> & Hpre & Hb)].
      * left. intros e' [<-|I]; auto.
      * right. exists (e :: pre), b, post. split; [reflexivity|].
        split; [|exact Hb]. intros e' [<-|I]; auto.
    + right. exists [], e, edges. split; [reflexivity|].
      split; [intros e' []|exact Bad].
Qed.

Lemma parse_pipeline_ok request :
  (forall e, In e (edges request) -> edge_ok (nodes request) e) ->
  exists b, is_dag (nodes request) (edges request) = Return b /\
    parse_pipeline request =
      Return {| resp_status := "parsed";
                resp_nodes_count := len (nodes request);
                resp_edges_count := len (edges request);
                resp_is_dag := b;
                resp_nodes := map Node_dict (nodes request);
                resp_edges := map Edge_dict (edges request) |}.
Proof.
  intros H. destruct (is_dag_returns (nodes request) (edges request))
    as (b & Hb).
  exists b. split; [exact Hb|].
  unfold parse_pipeline, parse_pipeline_body.
  rewrite check_references_ok by exact H. cbn [bind]. rewrite Hb.
  reflexivity.
Qed.

Lemma parse_pipeline_bad request pre e post :
  edges request = pre ++ e :: post ->
  (forall e', In e' pre -> edge_ok (nodes request) e') ->
  ~ edge_ok (nodes request) e ->
  parse_pipeline request = Raise (edge_error (nodes request) e).
Proof.
  intros E Hpre Hbad. unfold parse_pipeline, parse_pipeline_body.
  rewrite E, check_references_first by assumption. cbn [bind].
  unfold edge_error, source_error, target_error.
  destruct (in_dec string_dec (source e) (map node_id (nodes request)));
    reflexivity.
Qed.

(** ** What the validator reads *)

Lemma init_nodes_ids nodes : forall nodes' st,
  map node_id nodes = map node_id nodes' ->
  fold_left init_node nodes st = fold_left init_node nodes' st.
Proof.
  induction nodes as [|n nodes IH]; intros [|n' nodes'] st E;
    try discriminate; [reflexivity|].
  injection E as En E. simpl. rewrite (IH nodes') by exact E.
  f_equal. destruct st as [g d]. unfold init_node. now rewrite En.
Qed.

Lemma add_edges_ends edges : forall edges' st,
  map source edges = map source edges' ->
  map target edges = map target edges' ->
  foldM add_edge edges st = foldM add_edge edges' st.
Proof.
  induction edges as [|e edges IH]; intros [|e' edges'] st Es Et;
    try discriminate; [reflexivity|].
  injection Es as Es1 Es. injection Et as Et1 Et. cbn [foldM].
  assert (E : add_edge st e = add_edge st e').
  { destruct st as [g d]. unfold add_edge. now rewrite Es1, Et1. }
  rewrite E. destruct (add_edge st e') as [st'| |]; cbn [bind]; auto.
Qed.

Lemma map_len {A B C : Type} (f : A -> C) (g : B -> C) l l' :
  map f l = map g l' -> len l = len l'.
Proof.
  intros E. unfold len. f_equal.
  rewrite <- (length_map f l), <- (length_map g l'). now rewrite E.
Qed.

Lemma is_dag_fuel_ends fuel nodes nodes' edges edges' :
  map node_id nodes = map node_id nodes' ->
  map source edges = map source edges' ->
  map target edges = map target edges' ->
  is_dag_fuel fuel nodes edges = is_dag_fuel fuel nodes' edges'.
Proof.
  intros En Es Et. unfold is_dag_fuel, count_visited.
  rewrite (map_len _ _ _ _ En), (map_len _ _ _ _ Es).
  rewrite (init_nodes_ids _ _ _ En), (add_edges_ends _ _ _ Es Et).
  reflexivity.
Qed.

Lemma node_id_set_ids nodes : forall nodes' s,
  map node_id nodes = map node_id nodes' ->
  fold_left (fun s node => set_add string_dec (node_id node) s) nodes s =
  fold_left (fun s node => set_add string_dec (node_id node) s) nodes' s.
Proof.
  induction nodes as [|n nodes IH]; intros [|n' nodes'] s E;
    try discriminate; [reflexivity|].
  injection E as En E. simpl. rewrite En. now apply IH.
Qed.

Lemma check_references_ends ids edges : forall edges',
  map source edges = map source edges' ->
  map target edges = map target edges' ->
  check_references ids edges = check_references ids edges'.
Proof.
  induction edges as [|e edges IH]; intros [|e' edges'] Es Et;
    try discriminate; [reflexivity|].
  injection Es as Es1 Es. injection Et as Et1 Et. simpl.
  unfold source_error, target_error. rewrite Es1, Et1.
  now rewrite (IH edges').
Qed.

(** ** The echoed lists *)

Lemma map_injective {A B : Type} (f : A -> B) :
  (forall x y, f x = f y -> x = y) ->
  forall l l', map f l = map f l' -> l = l'.
Proof.
  intros Hf. induction l as [|a l IH]; intros [|a' l'] E;
    try discriminate; [reflexivity|].
  injection E as Ea E. f_equal; auto.
Qed.

Lemma Node_dict_injective n n' : Node_dict n = Node_dict n' -> n = n'.
Proof.
  destruct n as [i ty pos dat], n' as [i' ty' pos' dat'].
  unfold Node_dict. simpl. intros E. injection E as Ei Ety Epos Edat.
  apply map_injective in Epos.
  - congruence.
  - intros [k f] [k' f']. simpl. congruence.
Qed.

Lemma handle_value_injective h h' :
  handle_value h = handle_value h' -> h = h'.
Proof.
  destruct h, h'; simpl; congruence.
Qed.

Lemma Edge_dict_injective e e' : Edge_dict e = Edge_dict e' -> e = e'.
Proof.
  destruct e as [i s t sh th], e' as [i' s' t' sh' th'].
  unfold Edge_dict. simpl. intros E. injection E as Ei Es Et Esh Eth.
  apply handle_value_injective in Esh, Eth. congruence.
Qed.

Lemma kept_rel_references_ok nodes edges :
  references_ok nodes edges ->
  forall x y, kept_rel nodes edges x y <-> edge_rel edges x y.
Proof.
  intros Hok x y. unfold kept_rel. split; [tauto|].
  intros R. split; [exact R|].
  destruct R as (e & I & <- & <-). exact (Hok e I).
Qed.

Lemma edge_rel_nil x y : ~ edge_rel [] x y.
Proof.
  intros (e & [] & _).
Qed.

Lemma acyclic_empty (R : string -> string -> Prop) :
  (forall x y, ~ R x y) -> acyclic R.
Proof.
  intros H v C. destruct (cycle_succ C) as (s & Hs). exact (H _ _ Hs).
Qed.

Lemma duplicate_ids l1 n1 l2 n2 l3 :
  node_id n1 = node_id n2 ->
  ~ NoDup (map node_id (l1 ++ n1 :: l2 ++ n2 :: l3)).
Proof.
  intros E ND. rewrite map_app in ND. simpl in ND.
  apply NoDup_remove_2 in ND. apply ND.
  rewrite in_app_iff, map_app, in_app_iff. right. right.
  simpl. left. now symmetry.
Qed.

(** ** The validator on small requests *)

Example chain_is_parsed :
  parse_pipeline {| nodes := [mk_node "A"; mk_node "B"; mk_node "C"];
                    edges := [mk_edge "A" "B"; mk_edge "B" "C"] |} =
  Return {| resp_status := "parsed";
            resp_nodes_count := 3;
            resp_edges_count := 2;
            resp_is_dag := true;
            resp_nodes :=
              map Node_dict [mk_node "A"; mk_node "B"; mk_node "C"];
            resp_edges :=
              map Edge_dict [mk_edge "A" "B"; mk_edge "B" "C"] |}.
Proof. reflexivity. Qed.

Example self_loop_is_cyclic :
  is_dag [mk_node "A"] [mk_edge "A" "A"] = Return false.
Proof. reflexivity. Qed.

Example two_cycle_is_cyclic :
  is_dag [mk_node "A"; mk_node "B"] [mk_edge "A" "B"; mk_edge "B" "A"] =
  Return false.
Proof. reflexivity. Qed.

Example parallel_edges_are_acyclic :
  is_dag [mk_node "A"; mk_node "B"] [mk_edge "A" "B"; mk_edge "A" "B"] =
  Return true.
Proof. reflexivity. Qed.

Example repeated_identifier_is_rejected :
  is_dag [mk_node "A"; mk_node "A"; mk_node "B"] [mk_edge "A" "B"] =
  Return false.
Proof. reflexivity. Qed.

Example ghost_source_is_reported :
  parse_pipeline {| nodes := [mk_node "A"]; edges := [mk_edge "ghost" "A"] |} =
  Raise (HTTPException 400 "Edge references non-existent source node: ghost").
Proof. reflexivity. Qed.

Example seed_follows_declaration_order :
  zero_in_degree
    [("C", 0%Z); ("A", 1%Z); ("B", 0%Z); ("D", 0%Z)]%string =
  ["C"; "B"; "D"]%string.
Proof. reflexivity. Qed.

(** ** Properties of the validator *)

(** C1.  On a request whose node identifiers are pairwise distinct and whose
    edges all join submitted nodes, [is_dag] returns a verdict, and the
    verdict is [true] exactly when the graph of the edges has no directed
    cycle; the worklist then visits as many identifiers as there are nodes
    exactly when the graph has no directed cycle. *)
Theorem is_dag_iff_acyclic (nodes : list Node) (edges : list Edge) :
  NoDup (map node_id nodes) ->
  references_ok nodes edges ->
  (exists b : bool,
     is_dag nodes edges = Return b /\
     (b = true <-> acyclic (edge_rel edges))) /\
  (exists visited_count : Z,
     count_visited (length nodes) nodes edges = Return visited_count /\
     (visited_count = len nodes <-> acyclic (edge_rel edges))).
Proof.
  intros ND Hok.
  assert (Hrel : acyclic (kept_rel nodes edges) <-> acyclic (edge_rel edges))
    by (apply acyclic_ext, kept_rel_references_ok, Hok).
  split.
  - destruct nodes as [|n nodes].
    + exists true. split; [reflexivity|]. split; [|reflexivity].
      intros _. destruct edges as [|e edges].
      * apply acyclic_empty, edge_rel_nil.
      * destruct (Hok e (or_introl eq_refl)) as [[] _].
    + destruct edges as [|e edges].
      * exists true. split; [reflexivity|]. split; [|reflexivity].
        intros _. apply acyclic_empty, edge_rel_nil.
      * destruct (@is_dag_fuel_spec (n :: nodes) (e :: edges))
          as (b & Hb & H); [discriminate | discriminate |].
        exists b. split; [apply H, distinct_ids_le|].
        rewrite Hb, Hrel. tauto.
  - destruct (count_visited_spec nodes edges) as (r & Hr & A & E).
    eexists. split; [apply E, distinct_ids_le|].
    apply nodup_length_eq in ND. rewrite length_map in ND.
    fold (distinct_ids nodes) in ND. rewrite <- Hrel, <- A. unfold len. lia.
Qed.

Lemma is_dag_iff_acyclic_witness :
  (exists b : bool,
     is_dag [mk_node "A"; mk_node "B"; mk_node "C"]
            [mk_edge "A" "B"; mk_edge "B" "C"] = Return b /\
     (b = true <-> acyclic (edge_rel [mk_edge "A" "B"; mk_edge "B" "C"]))) /\
  (exists visited_count : Z,
     count_visited 3 [mk_node "A"; mk_node "B"; mk_node "C"]
        [mk_edge "A" "B"; mk_edge "B" "C"] = Return visited_count /\
     (visited_count = 3%Z <->
      acyclic (edge_rel [mk_edge "A" "B"; mk_edge "B" "C"]))).
Proof.
  apply (@is_dag_iff_acyclic [mk_node "A"; mk_node "B"; mk_node "C"]
           [mk_edge "A" "B"; mk_edge "B" "C"]).
  - simpl. repeat constructor; simpl; intuition discriminate.
  - intros e [<-|[<-|[]]]; unfold edge_ok; simpl; tauto.
Defined.

(** C2.  [parse_pipeline] raises the client error (status 400) exactly when
    some edge has a source or a target that is not a submitted node
    identifier; whatever it raises is that error for some edge of the
    request, with the missing identifier at the end of the message; and when
    every endpoint is a submitted node identifier it returns a
    classification. *)
Theorem parse_pipeline_invalid_reference (request : PipelineRequest) :
  ((exists detail, parse_pipeline request = Raise (HTTPException 400 detail))
   <->
   (exists e, In e (edges request) /\
      (~ In (source e) (map node_id (nodes request)) \/
       ~ In (target e) (map node_id (nodes request))))) /\
  (forall x, parse_pipeline request = Raise x ->
     exists e, In e (edges request) /\
       ((~ In (source e) (map node_id (nodes request)) /\
         x = HTTPException 400
               ("Edge references non-existent source node: " ++ source e))
        \/
        (~ In (target e) (map node_id (nodes request)) /\
         x = HTTPException 400
               ("Edge references non-existent target node: " ++ target e))))
  /\
  (references_ok (nodes request) (edges request) ->
     exists response, parse_pipeline request = Return response) /\
  parse_pipeline request <> OutOfFuel.
Proof.
  destruct (first_bad_edge (nodes request) (edges request))
    as [All|(pre & e & post & E & Hpre & Hbad)].
  - destruct (@parse_pipeline_ok request All) as (b & _ & R).
    rewrite R. repeat split; try discriminate.
    + intros (d & H). discriminate.
    + intros (e & I & H). destruct (All e I). tauto.
    + eauto.
  - pose proof (@parse_pipeline_bad request pre e post E Hpre Hbad) as R.
    assert (I : In e (edges request))
      by (rewrite E, in_app_iff; right; now left).
    assert (Hcase :
      (~ In (source e) (map node_id (nodes request)) /\
       edge_error (nodes request) e = source_error e) \/
      (~ In (target e) (map node_id (nodes request)) /\
       edge_error (nodes request) e = target_error e)).
    { unfold edge_error, edge_ok in *.
      destruct (in_dec string_dec (source e) (map node_id (nodes request)));
        [right | left]; tauto. }
    rewrite R. repeat split; try discriminate.
    + intros _. exists e. tauto.
    + intros _. destruct Hcase as [[_ ->]|[_ ->]]; eexists; reflexivity.
    + intros x Hx. injection Hx as <-. exists e. split; [exact I|].
      destruct Hcase as [[N ->]|[N ->]]; [left | right]; split;
        auto; reflexivity.
    + intros Hok. destruct (Hbad (Hok e I)).
Qed.

(** C3.  When every edge passes the reference check, [parse_pipeline]
    returns the status ["parsed"], the two lengths, the verdict of [is_dag],
    and the [dict()] images of the submitted nodes and edges in their order;
    these images determine the submitted lists. *)
Theorem parse_pipeline_result (request : PipelineRequest) :
  references_ok (nodes request) (edges request) ->
  exists b : bool,
    is_dag (nodes request) (edges request) = Return b /\
    parse_pipeline request =
      Return {| resp_status := "parsed";
                resp_nodes_count := Z.of_nat (length (nodes request));
                resp_edges_count := Z.of_nat (length (edges request));
                resp_is_dag := b;
                resp_nodes := map Node_dict (nodes request);
                resp_edges := map Edge_dict (edges request) |} /\
    (forall ns, map Node_dict ns = map Node_dict (nodes request) ->
       ns = nodes request) /\
    (forall es, map Edge_dict es = map Edge_dict (edges request) ->
       es = edges request).
Proof.
  intros Hok. destruct (@parse_pipeline_ok request Hok) as (b & Hb & R).
  exists b. split; [exact Hb|]. split; [exact R|]. split.
  - intros ns E. eapply map_injective; [exact Node_dict_injective | exact E].
  - intros es E. eapply map_injective; [exact Edge_dict_injective | exact E].
Qed.

Lemma parse_pipeline_result_witness :
  exists b : bool,
    is_dag [mk_node "A"; mk_node "B"; mk_node "C"]
           [mk_edge "A" "B"; mk_edge "B" "C"] = Return b /\
    parse_pipeline {| nodes := [mk_node "A"; mk_node "B"; mk_node "C"];
                      edges := [mk_edge "A" "B"; mk_edge "B" "C"] |} =
      Return {| resp_status := "parsed";
                resp_nodes_count := 3;
                resp_edges_count := 2;
                resp_is_dag := b;
                resp_nodes :=
                  map Node_dict [mk_node "A"; mk_node "B"; mk_node "C"];
                resp_edges :=
                  map Edge_dict [mk_edge "A" "B"; mk_edge "B" "C"] |} /\
    (forall ns,
       map Node_dict ns =
       map Node_dict [mk_node "A"; mk_node "B"; mk_node "C"] ->
       ns = [mk_node "A"; mk_node "B"; mk_node "C"]) /\
    (forall es,
       map Edge_dict es = map Edge_dict [mk_edge "A" "B"; mk_edge "B" "C"] ->
       es = [mk_edge "A" "B"; mk_edge "B" "C"]).
Proof.
  apply (@parse_pipeline_result
           {| nodes := [mk_node "A"; mk_node "B"; mk_node "C"];
              edges := [mk_edge "A" "B"; mk_edge "B" "C"] |}).
  intros e [<-|[<-|[]]]; unfold edge_ok; simpl; tauto.
Defined.

(** C6.  When some edge has a missing endpoint, the error raised by
    [parse_pipeline] is the one of the first such edge in the order of the
    request: the source error when its source is missing, and the target
    error only when its source is present. *)
Theorem parse_pipeline_fail_fast (request : PipelineRequest) :
  (exists e, In e (edges request) /\ ~ edge_ok (nodes request) e) ->
  exists pre e post,
    edges request = pre ++ e :: post /\
    (forall e', In e' pre -> edge_ok (nodes request) e') /\
    ~ edge_ok (nodes request) e /\
    (~ In (source e) (map node_id (nodes request)) ->
       parse_pipeline request =
         Raise (HTTPException 400
                  ("Edge references non-existent source node: " ++ source e)))
    /\
    (In (source e) (map node_id (nodes request)) ->
       parse_pipeline request =
         Raise (HTTPException 400
                  ("Edge references non-existent target node: " ++ target e))).
Proof.
  intros (b & Ib & Hb).
  destruct (first_bad_edge (nodes request) (edges request))
    as [All|(pre & e & post & E & Hpre & Hbad)]; [destruct (Hb (All b Ib))|].
  exists pre, e, post. split; [exact E|]. split; [exact Hpre|].
  split; [exact Hbad|].
  rewrite (@parse_pipeline_bad request pre e post E Hpre Hbad).
  unfold edge_error.
  destruct (in_dec string_dec (source e) (map node_id (nodes request)));
    split; intros H; try reflexivity; tauto.
Qed.

Lemma parse_pipeline_fail_fast_witness :
  exists pre e post,
    [mk_edge "A" "B"; mk_edge "ghost" "phantom"; mk_edge "A" "nowhere"] =
      pre ++ e :: post /\
    (forall e', In e' pre -> edge_ok [mk_node "A"; mk_node "B"] e') /\
    ~ edge_ok [mk_node "A"; mk_node "B"] e /\
    (~ In (source e) (map node_id [mk_node "A"; mk_node "B"]) ->
       parse_pipeline
         {| nodes := [mk_node "A"; mk_node "B"];
            edges := [mk_edge "A" "B"; mk_edge "ghost" "phantom";
                      mk_edge "A" "nowhere"] |} =
         Raise (HTTPException 400
                  ("Edge references non-existent source node: " ++ source e)))
    /\
    (In (source e) (map node_id [mk_node "A"; mk_node "B"]) ->
       parse_pipeline
         {| nodes := [mk_node "A"; mk_node "B"];
            edges := [mk_edge "A" "B"; mk_edge "ghost" "phantom";
                      mk_edge "A" "nowhere"] |} =
         Raise (HTTPException 400
                  ("Edge references non-existent target node: " ++ target e))).
Proof.
  apply (@parse_pipeline_fail_fast
           {| nodes := [mk_node "A"; mk_node "B"];
              edges := [mk_edge "A" "B"; mk_edge "ghost" "phantom";
                        mk_edge "A" "nowhere"] |}).
  exists (mk_edge "ghost" "phantom"). split; [simpl; tauto|].
  unfold edge_ok. simpl. intuition discriminate.
Defined.

(** C4.  For every node list, [is_dag] gives the same result on two edge
    lists that are permutations of each other. *)
Theorem is_dag_edge_permutation (nodes : list Node)
    (edges1 edges2 : list Edge) :
  Permutation edges1 edges2 ->
  is_dag nodes edges1 = is_dag nodes edges2.
Proof.
  intros P. destruct nodes as [|n nodes]; [reflexivity|].
  destruct edges1 as [|e1 edges1].
  { apply Permutation_nil in P. now subst. }
  destruct edges2 as [|e2 edges2].
  { apply Permutation_sym, Permutation_nil in P. discriminate. }
  destruct (@is_dag_fuel_spec (n :: nodes) (e1 :: edges1))
    as (b1 & Hb1 & H1); [discriminate | discriminate |].
  destruct (@is_dag_fuel_spec (n :: nodes) (e2 :: edges2))
    as (b2 & Hb2 & H2); [discriminate | discriminate |].
  unfold is_dag. rewrite H1, H2 by apply distinct_ids_le. f_equal.
  assert (A : acyclic (kept_rel (n :: nodes) (e1 :: edges1)) <->
              acyclic (kept_rel (n :: nodes) (e2 :: edges2))).
  { apply acyclic_ext. intros x y. unfold kept_rel, edge_rel.
    split; intros ((e & I & Hs & Ht) & Hx & Hy); (split; [|tauto]);
      exists e; (split; [|tauto]).
    - eapply Permutation_in; [exact P | exact I].
    - eapply Permutation_in; [apply Permutation_sym; exact P | exact I]. }
  destruct b1, b2; try reflexivity; exfalso.
  - assert (false = true) by (apply Hb2; rewrite <- A; now apply Hb1).
    discriminate.
  - assert (false = true) by (apply Hb1; rewrite A; now apply Hb2).
    discriminate.
Qed.

Lemma is_dag_edge_permutation_witness :
  is_dag [mk_node "A"; mk_node "B"; mk_node "C"]
         [mk_edge "A" "B"; mk_edge "B" "A"; mk_edge "B" "C"] =
  is_dag [mk_node "A"; mk_node "B"; mk_node "C"]
         [mk_edge "B" "A"; mk_edge "A" "B"; mk_edge "B" "C"].
Proof.
  apply (@is_dag_edge_permutation [mk_node "A"; mk_node "B"; mk_node "C"]).
  apply perm_swap.
Defined.

(** C5.  [is_dag] returns [true] on an empty node list whatever the edges,
    and on an empty edge list whatever the nodes; the answer is given before
    the worklist is entered, since it does not need any fuel. *)
Theorem is_dag_trivial :
  (forall edges, is_dag [] edges = Return true) /\
  (forall nodes, is_dag nodes [] = Return true) /\
  (forall fuel nodes edges,
     nodes = [] \/ edges = [] -> is_dag_fuel fuel nodes edges = Return true).
Proof.
  assert (H : forall fuel nodes edges,
            nodes = [] \/ edges = [] ->
            is_dag_fuel fuel nodes edges = Return true).
  { intros fuel nodes edges [->| ->]; [reflexivity|].
    unfold is_dag_fuel. destruct (len nodes =? 0)%Z; reflexivity. }
  split; [|split; [|exact H]].
  - intros edges. apply H. now left.
  - intros nodes. apply H. now right.
Qed.

(** C8.  When two of the submitted nodes share an identifier and there is at
    least one edge, all edges joining submitted nodes, [is_dag] returns
    [false]: the worklist visits at most as many identifiers as there are
    distinct ones, which is fewer than the length of the node list. *)
Theorem is_dag_duplicate_ids (l1 l2 l3 : list Node) (n1 n2 : Node)
    (edges : list Edge) :
  node_id n1 = node_id n2 ->
  edges <> [] ->
  references_ok (l1 ++ n1 :: l2 ++ n2 :: l3) edges ->
  is_dag (l1 ++ n1 :: l2 ++ n2 :: l3) edges = Return false /\
  exists visited_count : Z,
    count_visited (length (l1 ++ n1 :: l2 ++ n2 :: l3))
      (l1 ++ n1 :: l2 ++ n2 :: l3) edges = Return visited_count /\
    (0 <= visited_count)%Z /\
    (visited_count <= Z.of_nat (distinct_ids (l1 ++ n1 :: l2 ++ n2 :: l3)))%Z /\
    (Z.of_nat (distinct_ids (l1 ++ n1 :: l2 ++ n2 :: l3)) <
     len (l1 ++ n1 :: l2 ++ n2 :: l3))%Z.
Proof.
  intros Eid He _. pose proof (@duplicate_ids l1 n1 l2 n2 l3 Eid) as Dup.
  remember (l1 ++ n1 :: l2 ++ n2 :: l3) as nodes eqn:En.
  assert (Hn : nodes <> []) by (subst; apply not_eq_sym, app_cons_not_nil).
  split.
  - destruct (@is_dag_fuel_spec nodes edges Hn He) as (b & Hb & H).
    unfold is_dag. rewrite H by apply distinct_ids_le. f_equal.
    destruct b; [|reflexivity]. destruct Dup. now apply Hb.
  - destruct (count_visited_spec nodes edges) as (r & Hr & _ & E).
    eexists. split; [apply E, distinct_ids_le|].
    pose proof (nodup_length_le (map node_id nodes)) as Hle.
    pose proof (nodup_length_eq (map node_id nodes)) as Heq.
    rewrite length_map in Hle, Heq. fold (distinct_ids nodes) in Hle, Heq.
    assert (distinct_ids nodes <> length nodes) by tauto.
    unfold len. lia.
Qed.

Lemma is_dag_duplicate_ids_witness :
  is_dag ([] ++ mk_node "A" :: [] ++ mk_node "A" :: [mk_node "B"])
         [mk_edge "A" "B"] = Return false /\
  exists visited_count : Z,
    count_visited
      (length ([] ++ mk_node "A" :: [] ++ mk_node "A" :: [mk_node "B"]))
      ([] ++ mk_node "A" :: [] ++ mk_node "A" :: [mk_node "B"])
      [mk_edge "A" "B"] = Return visited_count /\
    (0 <= visited_count)%Z /\
    (visited_count <=
     Z.of_nat (distinct_ids
                 ([] ++ mk_node "A" :: [] ++ mk_node "A" :: [mk_node "B"])))%Z
    /\
    (Z.of_nat (distinct_ids
                 ([] ++ mk_node "A" :: [] ++ mk_node "A" :: [mk_node "B"])) <
     len ([] ++ mk_node "A" :: [] ++ mk_node "A" :: [mk_node "B"]))%Z.
Proof.
  apply (@is_dag_duplicate_ids [] [] [mk_node "B"] (mk_node "A")
           (mk_node "A") [mk_edge "A" "B"]).
  - reflexivity.
  - discriminate.
  - intros e [<-|[]]. unfold edge_ok. simpl. tauto.
Defined.

(** C9.  Two requests with the same node identifiers, in the same order,
    and the same edge sources and targets get the same verdict from
    [is_dag] and the same outcome from the reference check; so
    [parse_pipeline] raises the same error on both or returns on both, with
    the same verdict.  Node types, positions, data and the edge identifiers
    and handles play no part. *)
Theorem validator_reads_identifiers_only
    (request1 request2 : PipelineRequest) :
  map node_id (nodes request1) = map node_id (nodes request2) ->
  map source (edges request1) = map source (edges request2) ->
  map target (edges request1) = map target (edges request2) ->
  is_dag (nodes request1) (edges request1) =
    is_dag (nodes request2) (edges request2) /\
  check_references (node_id_set (nodes request1)) (edges request1) =
    check_references (node_id_set (nodes request2)) (edges request2) /\
  (forall x, parse_pipeline request1 = Raise x <->
             parse_pipeline request2 = Raise x) /\
  (forall response1, parse_pipeline request1 = Return response1 ->
     exists response2, parse_pipeline request2 = Return response2 /\
       resp_is_dag response1 = resp_is_dag response2).
Proof.
  intros En Es Et.
  assert (Hdag : is_dag (nodes request1) (edges request1) =
                 is_dag (nodes request2) (edges request2)).
  { unfold is_dag. rewrite <- (length_map node_id (nodes request1)), En,
      length_map. now apply is_dag_fuel_ends. }
  assert (Hchk : check_references (node_id_set (nodes request1))
                   (edges request1) =
                 check_references (node_id_set (nodes request2))
                   (edges request2)).
  { unfold node_id_set. rewrite (node_id_set_ids _ _ _ En).
    now apply check_references_ends. }
  split; [exact Hdag|]. split; [exact Hchk|].
  unfold parse_pipeline, parse_pipeline_body. rewrite Hdag, Hchk.
  destruct (check_references (node_id_set (nodes request2)) (edges request2))
    as [[]|[k|c d]|]; cbn [bind];
    [|split; [intros x; tauto | intros r1 H; discriminate]..].
  destruct (is_dag (nodes request2) (edges request2)) as [b|[k|c d]|];
    cbn [bind];
    [|split; [intros x; tauto | intros r1 H; discriminate]..].
  split; [intros x; split; discriminate|].
  intros r1 H. injection H as <-. eexists. split; reflexivity.
Qed.

Lemma validator_reads_identifiers_only_witness :
  is_dag (nodes plain_request) (edges plain_request) =
    is_dag (nodes styled_request) (edges styled_request) /\
  check_references (node_id_set (nodes plain_request)) (edges plain_request) =
    check_references (node_id_set (nodes styled_request))
      (edges styled_request) /\
  (forall x, parse_pipeline plain_request = Raise x <->
             parse_pipeline styled_request = Raise x) /\
  (forall response1, parse_pipeline plain_request = Return response1 ->
     exists response2, parse_pipeline styled_request = Return response2 /\
       resp_is_dag response1 = resp_is_dag response2).
Proof.
  apply (@validator_reads_identifiers_only plain_request styled_request);
    reflexivity.
Defined.

(** C10.  [is_dag] terminates on every input: with one unit of fuel per
    distinct node identifier the worklist loop runs to its end, so it
    executes at most that many iterations, and its final [visited_count],
    which is incremented once per iteration, is at most the number of
    distinct node identifiers. *)
Theorem is_dag_terminates (nodes : list Node) (edges : list Edge) :
  (exists b : bool,
     is_dag nodes edges = Return b /\
     forall fuel, distinct_ids nodes <= fuel ->
       is_dag_fuel fuel nodes edges = Return b) /\
  (exists visited_count : Z,
     (0 <= visited_count <= Z.of_nat (distinct_ids nodes))%Z /\
     forall fuel, distinct_ids nodes <= fuel ->
       count_visited fuel nodes edges = Return visited_count).
Proof.
  split.
  - destruct (is_dag_fuel_returns nodes edges) as (b & H).
    exists b. split; [apply H, distinct_ids_le | exact H].
  - destruct (count_visited_spec nodes edges) as (r & Hr & _ & E).
    eexists. split; [|exact E]. lia.
Qed.

(** ** Further properties of [is_dag] *)

Lemma bool_iff_eq (b1 b2 : bool) : (b1 = true <-> b2 = true) -> b1 = b2.
Proof.
  destruct b1, b2; intros [H1 H2]; auto.
  symmetry. now apply H1.
Qed.

Lemma acyclic_mono (R1 R2 : string -> string -> Prop) :
  (forall x y, R1 x y -> R2 x y) -> acyclic R2 -> acyclic R1.
Proof.
  intros H A v C. apply (A v). revert C. now apply clos_trans_ext.
Qed.

Lemma kept_rel_incl nodes edges edges' x y :
  incl edges edges' -> kept_rel nodes edges x y -> kept_rel nodes edges' x y.
Proof.
  intros Hin ((e & I & Hs & Ht) & Hx & Hy). split; [|tauto].
  exists e. split; [now apply Hin | tauto].
Qed.

(** The verdict on every input. *)
Lemma is_dag_verdict_cases nodes edges :
  exists b : bool,
    is_dag nodes edges = Return b /\
    (b = true <->
     nodes = [] \/ edges = [] \/
     (NoDup (map node_id nodes) /\ acyclic (kept_rel nodes edges))).
Proof.
  destruct nodes as [|n nodes].
  { exists true. split; [reflexivity | tauto]. }
  destruct edges as [|e edges].
  { exists true. split; [reflexivity | tauto]. }
  destruct (@is_dag_fuel_spec (n :: nodes) (e :: edges)) as (b & Hb & H);
    [discriminate | discriminate |].
  exists b. split; [apply H, distinct_ids_le|].
  rewrite Hb. split; [tauto|].
  intros [H0|[H0|H0]]; [discriminate | discriminate | exact H0].
Qed.

(** X1.  On a request with at least one node and one edge, [is_dag] returns
    [true] exactly when the node identifiers are pairwise distinct and the
    edges that join two submitted nodes form no directed cycle; edges with a
    missing endpoint play no part. *)
Theorem is_dag_verdict (nodes : list Node) (edges : list Edge) :
  nodes <> [] -> edges <> [] ->
  exists b : bool,
    is_dag nodes edges = Return b /\
    (b = true <->
     NoDup (map node_id nodes) /\ acyclic (kept_rel nodes edges)).
Proof.
  intros Hn He.
  destruct (@is_dag_fuel_spec nodes edges Hn He) as (b & Hb & H).
  exists b. split; [|exact Hb].
  unfold is_dag. apply H. apply distinct_ids_le.
Qed.

Lemma is_dag_verdict_witness :
  exists b : bool,
    is_dag [mk_node "A"; mk_node "B"]
           [mk_edge "A" "B"; mk_edge "B" "ghost"] = Return b /\
    (b = true <->
     NoDup (map node_id [mk_node "A"; mk_node "B"]) /\
     acyclic (kept_rel [mk_node "A"; mk_node "B"]
                [mk_edge "A" "B"; mk_edge "B" "ghost"])).
Proof.
  apply (@is_dag_verdict [mk_node "A"; mk_node "B"]
           [mk_edge "A" "B"; mk_edge "B" "ghost"]); discriminate.
Defined.

Lemma edge_okb_true nodes e : edge_okb nodes e = true <-> edge_ok nodes e.
Proof.
  unfold edge_okb, edge_ok.
  destruct (in_dec string_dec (source e) (map node_id nodes));
    destruct (in_dec string_dec (target e) (map node_id nodes));
    split; try tauto; discriminate.
Qed.

Lemma kept_rel_kept_edges nodes edges x y :
  kept_rel nodes (kept_edges nodes edges) x y <-> kept_rel nodes edges x y.
Proof.
  unfold kept_rel, edge_rel, kept_edges. split.
  - intros ((e & I & Hs & Ht) & Hx & Hy). apply filter_In in I.
    split; [|tauto]. exists e. tauto.
  - intros ((e & I & Hs & Ht) & Hx & Hy). split; [|tauto].
    exists e. split; [|tauto]. apply filter_In. split; [exact I|].
    apply edge_okb_true. unfold edge_ok. now rewrite Hs, Ht.
Qed.

Lemma acyclic_kept_nil nodes : acyclic (kept_rel nodes []).
Proof.
  apply acyclic_empty. intros x y (R & _). exact (edge_rel_nil R).
Qed.

(** X2.  When the node identifiers are pairwise distinct, the edges with a
    missing endpoint do not influence [is_dag]: the result is the one
    obtained after these edges are removed. *)
Theorem is_dag_ignores_dangling_edges (nodes : list Node) (edges : list Edge) :
  NoDup (map node_id nodes) ->
  is_dag nodes edges = is_dag nodes (kept_edges nodes edges).
Proof.
  intros ND.
  destruct (is_dag_verdict_cases nodes edges) as (b1 & -> & H1).
  destruct (is_dag_verdict_cases nodes (kept_edges nodes edges))
    as (b2 & -> & H2).
  f_equal. apply bool_iff_eq. rewrite H1, H2.
  assert (A : acyclic (kept_rel nodes (kept_edges nodes edges)) <->
              acyclic (kept_rel nodes edges))
    by (apply acyclic_ext; intros x y; apply kept_rel_kept_edges).
  split.
  - intros [H|[H|[_ H]]]; [now left | right; left; now rewrite H |].
    right. right. split; [exact ND | now apply A].
  - intros [H|[H|[_ H]]]; [now left | | right; right; tauto].
    right. right. split; [exact ND|]. apply A. rewrite H.
    apply acyclic_kept_nil.
Qed.

Lemma is_dag_ignores_dangling_edges_witness :
  is_dag [mk_node "A"; mk_node "B"]
         [mk_edge "A" "ghost"; mk_edge "A" "B"; mk_edge "ghost" "A"] =
  is_dag [mk_node "A"; mk_node "B"]
         (kept_edges [mk_node "A"; mk_node "B"]
            [mk_edge "A" "ghost"; mk_edge "A" "B"; mk_edge "ghost" "A"]).
Proof.
  apply (@is_dag_ignores_dangling_edges [mk_node "A"; mk_node "B"]).
  simpl. repeat constructor; simpl; intuition discriminate.
Defined.

(** With a repeated identifier the two results can differ: one dangling edge
    is enough to leave the short-circuit on the empty edge list. *)
Example dangling_edge_with_repeated_identifier :
  is_dag [mk_node "A"; mk_node "A"] [mk_edge "ghost" "A"] = Return false /\
  is_dag [mk_node "A"; mk_node "A"]
    (kept_edges [mk_node "A"; mk_node "A"] [mk_edge "ghost" "A"]) =
  Return true.
Proof. split; reflexivity. Qed.

(** X3.  An edge from a submitted node to itself makes [is_dag] return
    [false], whatever the other nodes and edges are. *)
Theorem is_dag_self_loop (nodes : list Node) (edges : list Edge) (e : Edge) :
  In e edges ->
  source e = target e ->
  In (source e) (map node_id nodes) ->
  is_dag nodes edges = Return false.
Proof.
  intros I Hst Hs.
  destruct (is_dag_verdict_cases nodes edges) as (b & -> & H).
  f_equal. destruct b; [|reflexivity]. exfalso.
  destruct (proj1 H eq_refl) as [H0|[H0|[_ A]]].
  - subst. destruct Hs.
  - subst. destruct I.
  - apply (A (source e)). apply t_step. split; [|split; [exact Hs|exact Hs]].
    exists e. split; [exact I|]. split; [reflexivity | now symmetry].
Qed.

Lemma is_dag_self_loop_witness :
  is_dag [mk_node "A"; mk_node "B"; mk_node "C"]
         [mk_edge "A" "B"; mk_edge "B" "B"; mk_edge "B" "C"] = Return false.
Proof.
  apply (@is_dag_self_loop [mk_node "A"; mk_node "B"; mk_node "C"]
           [mk_edge "A" "B"; mk_edge "B" "B"; mk_edge "B" "C"]
           (mk_edge "B" "B")).
  - simpl. tauto.
  - reflexivity.
  - simpl. tauto.
Defined.

(** X4.  Removing edges keeps a graph acyclic: when [is_dag] returns [true]
    on an edge list, it returns [true] on every edge list whose edges all
    occur in it. *)
Theorem is_dag_fewer_edges (nodes : list Node) (edges edges' : list Edge) :
  incl edges edges' ->
  is_dag nodes edges' = Return true ->
  is_dag nodes edges = Return true.
Proof.
  intros Hin H'.
  destruct (is_dag_verdict_cases nodes edges') as (b' & E' & Hb').
  rewrite E' in H'. injection H' as ->.
  destruct (is_dag_verdict_cases nodes edges) as (b & -> & Hb).
  f_equal. apply Hb.
  destruct (proj1 Hb' eq_refl) as [H0|[H0|[ND A]]].
  - now left.
  - right. left. subst. now apply incl_l_nil.
  - right. right. split; [exact ND|].
    apply acyclic_mono with (R2 := kept_rel nodes edges'); [|exact A].
    intros x y. now apply kept_rel_incl.
Qed.

Lemma is_dag_fewer_edges_witness :
  is_dag [mk_node "A"; mk_node "B"; mk_node "C"]
         [mk_edge "A" "C"; mk_edge "A" "C"] = Return true.
Proof.
  apply (@is_dag_fewer_edges [mk_node "A"; mk_node "B"; mk_node "C"]
           [mk_edge "A" "C"; mk_edge "A" "C"]
           [mk_edge "A" "B"; mk_edge "B" "C"; mk_edge "A" "C"]).
  - intros e [<-|[<-|[]]]; simpl; tauto.
  - reflexivity.
Defined.

(** X5.  The order in which the nodes are submitted does not matter: on two
    node lists that are permutations of each other [is_dag] gives the same
    result. *)
Theorem is_dag_node_permutation (nodes nodes' : list Node)
    (edges : list Edge) :
  Permutation nodes nodes' ->
  is_dag nodes edges = is_dag nodes' edges.
Proof.
  intros P.
  destruct (is_dag_verdict_cases nodes edges) as (b & -> & Hb).
  destruct (is_dag_verdict_cases nodes' edges) as (b' & -> & Hb').
  f_equal. apply bool_iff_eq. rewrite Hb, Hb'.
  pose proof (Permutation_map node_id P) as Pm.
  assert (Hnil : nodes = [] <-> nodes' = []).
  { split; intros ->.
    - now apply Permutation_nil.
    - now apply Permutation_nil, Permutation_sym. }
  assert (HND : NoDup (map node_id nodes) <-> NoDup (map node_id nodes')).
  { split; apply Permutation_NoDup;
      [exact Pm | now apply Permutation_sym]. }
  assert (A : acyclic (kept_rel nodes edges) <->
              acyclic (kept_rel nodes' edges)).
  { apply acyclic_ext. intros x y. unfold kept_rel.
    split; intros (R & Hx & Hy); (split; [exact R|]); split.
    - eapply Permutation_in; [exact Pm | exact Hx].
    - eapply Permutation_in; [exact Pm | exact Hy].
    - eapply Permutation_in; [apply Permutation_sym; exact Pm | exact Hx].
    - eapply Permutation_in; [apply Permutation_sym; exact Pm | exact Hy]. }
  rewrite Hnil, HND, A. tauto.
Qed.

Lemma is_dag_node_permutation_witness :
  is_dag [mk_node "A"; mk_node "B"; mk_node "C"]
         [mk_edge "C" "A"; mk_edge "A" "B"] =
  is_dag [mk_node "B"; mk_node "A"; mk_node "C"]
         [mk_edge "C" "A"; mk_edge "A" "B"].
Proof.
  apply (@is_dag_node_permutation [mk_node "A"; mk_node "B"; mk_node "C"]
           [mk_node "B"; mk_node "A"; mk_node "C"]).
  apply perm_swap.
Defined.

(** ** The tables built from a request *)

Lemma targets_from_cons nodes e edges s :
  targets_from nodes (e :: edges) s =
  if edge_okb nodes e && String.eqb (source e) s
  then target e :: targets_from nodes edges s
  else targets_from nodes edges s.
Proof.
  unfold targets_from, kept_edges. simpl.
  destruct (edge_okb nodes e); simpl; [|reflexivity].
  destruct (String.eqb (source e) s); reflexivity.
Qed.

Lemma edges_into_cons nodes e edges t :
  edges_into nodes (e :: edges) t =
  if edge_okb nodes e && String.eqb (target e) t
  then S (edges_into nodes edges t)
  else edges_into nodes edges t.
Proof.
  unfold edges_into, kept_edges. simpl.
  destruct (edge_okb nodes e); simpl; [|reflexivity].
  destruct (String.eqb (target e) t); reflexivity.
Qed.

Lemma contains_edge_okb nodes (g : Dict.t (list string)) e :
  (forall x, In x (Dict.keys g) <-> In x (map node_id nodes)) ->
  Dict.contains g (source e) && Dict.contains g (target e) = edge_okb nodes e.
Proof.
  intros HK. apply bool_iff_eq.
  rewrite andb_true_iff, !DictFacts.contains_in, !HK, edge_okb_true.
  reflexivity.
Qed.

Lemma get_get_default {V : Type} (d : Dict.t V) k (default : V) :
  In k (Dict.keys d) -> Dict.get d k = Some (Dict.get_default d k default).
Proof.
  intros I. destruct (DictFacts.in_get _ _ I) as (v & E).
  unfold Dict.get_default. now rewrite E.
Qed.

Lemma add_edges_tables nodes edges : forall g d,
  (forall x, In x (Dict.keys g) <-> In x (map node_id nodes)) ->
  Dict.keys d = Dict.keys g ->
  exists g' d',
    foldM add_edge edges (g, d) = Return (g', d') /\
    Dict.keys g' = Dict.keys g /\ Dict.keys d' = Dict.keys d /\
    (forall s, In s (Dict.keys g) ->
       Dict.get g' s =
         Some (Dict.get_default g s [] ++ targets_from nodes edges s)) /\
    (forall t, In t (Dict.keys g) ->
       Dict.get d' t =
         Some (Dict.get_default d t 0 + Z.of_nat (edges_into nodes edges t))%Z).
Proof.
  induction edges as [|e edges IH]; intros g d HK HKd.
  - exists g, d. split; [reflexivity|]. split; [reflexivity|].
    split; [reflexivity|]. split.
    + intros s I. unfold targets_from. simpl. rewrite app_nil_r.
      now apply get_get_default.
    + intros t I. unfold edges_into. simpl. rewrite Z.add_0_r.
      apply get_get_default. now rewrite HKd.
  - cbn [foldM]. unfold add_edge at 1.
    rewrite (@contains_edge_okb nodes g e HK).
    destruct (edge_okb nodes e) eqn:Ok.
    + pose proof (proj1 (edge_okb_true nodes e) Ok) as [Is It].
      apply HK in Is, It.
      unfold Dict.getitem.
      rewrite (@get_get_default _ g (source e) [] Is). cbn [bind].
      set (g1 := Dict.set g (source e)
                   (Dict.get_default g (source e) [] ++ [target e])).
      set (d1 := Dict.set d (target e)
                   (Dict.get_default d (target e) 0 + 1)%Z).
      assert (HKg1 : Dict.keys g1 = Dict.keys g)
        by (apply DictFacts.keys_set_in; exact Is).
      assert (HKd1 : Dict.keys d1 = Dict.keys d)
        by (apply DictFacts.keys_set_in; now rewrite HKd).
      destruct (IH g1 d1) as (g' & d' & E & Hg' & Hd' & HG & HD).
      { intros x. rewrite HKg1. apply HK. }
      { congruence. }
      exists g', d'. split; [exact E|]. split; [congruence|].
      split; [congruence|]. split.
      * intros s I. rewrite HG by now rewrite HKg1.
        rewrite targets_from_cons, Ok. simpl. f_equal.
        unfold Dict.get_default at 1. unfold g1.
        destruct (String.eqb_spec (source e) s) as [<-|Hne].
        -- rewrite DictFacts.get_set_same. now rewrite <- app_assoc.
        -- rewrite DictFacts.get_set_other by exact Hne. reflexivity.
      * intros t I. rewrite HD by now rewrite HKg1.
        rewrite edges_into_cons, Ok. simpl. f_equal.
        unfold Dict.get_default at 1. unfold d1.
        destruct (String.eqb_spec (target e) t) as [<-|Hne].
        -- rewrite DictFacts.get_set_same. lia.
        -- rewrite DictFacts.get_set_other by exact Hne. reflexivity.
    + cbn [bind].
      destruct (IH g d HK HKd) as (g' & d' & E & Hg' & Hd' & HG & HD).
      exists g', d'. split; [exact E|]. split; [exact Hg'|].
      split; [exact Hd'|]. split.
      * intros s I. rewrite targets_from_cons, Ok. simpl. now apply HG.
      * intros t I. rewrite edges_into_cons, Ok. simpl. now apply HD.
Qed.

(** X6.  The tables built by [is_dag] before the worklist starts: both have
    exactly the submitted node identifiers as keys; the adjacency list of a
    node holds the targets of the edges that leave it and join two submitted
    nodes, in the order of the request; and the in-degree of a node is the
    number of such edges that enter it. *)
Theorem build_tables_content (nodes : list Node) (edges : list Edge) :
  exists graph in_degree,
    build_tables nodes edges = Return (graph, in_degree) /\
    (forall x, Dict.contains graph x = true <-> In x (map node_id nodes)) /\
    (forall x, Dict.contains in_degree x = true <->
               In x (map node_id nodes)) /\
    (forall s, In s (map node_id nodes) ->
       Dict.get graph s = Some (targets_from nodes edges s)) /\
    (forall t, In t (map node_id nodes) ->
       Dict.get in_degree t = Some (Z.of_nat (edges_into nodes edges t))).
Proof.
  assert (F0 : fresh (@Dict.empty (list string)) (@Dict.empty Z)).
  { repeat split; try constructor; discriminate. }
  destruct (init_nodes_fresh nodes F0) as (g0 & d0 & E0 & F1 & HK0).
  destruct F1 as (HKgd & ND & Hnil & Hzero).
  assert (HK : forall x, In x (Dict.keys g0) <-> In x (map node_id nodes)).
  { intros x. rewrite HK0. simpl. tauto. }
  destruct (add_edges_tables nodes edges g0 d0 HK (eq_sym HKgd))
    as (g & d & E & Hg & Hd & HG & HD).
  exists g, d. unfold build_tables. rewrite E0. split; [exact E|].
  split; [|split; [|split]].
  - intros x. rewrite DictFacts.contains_in, Hg. apply HK.
  - intros x. rewrite DictFacts.contains_in, Hd, <- HKgd. apply HK.
  - intros s I. apply HK in I. rewrite (HG s I). f_equal.
    unfold Dict.get_default.
    destruct (Dict.get g0 s) eqn:Es; [|reflexivity].
    now rewrite (Hnil _ _ Es).
  - intros t I. apply HK in I. rewrite (HD t I). f_equal.
    unfold Dict.get_default.
    destruct (Dict.get d0 t) eqn:Et; [|reflexivity].
    now rewrite (Hzero _ _ Et).
Qed.

(** ** The identifiers that the worklist never visits *)

Section Downstream.

Variable R : string -> string -> Prop.

Lemma trans_refl_trans x y :
  clos_trans string R x y -> clos_refl_trans string R x y.
Proof.
  intros C. induction C as [x y HR|x y z _ IH1 _ IH2].
  - now apply rt_step.
  - now apply rt_trans with y.
Qed.

Lemma downstream_pred t :
  downstream_of_cycle R t -> exists s, R s t /\ downstream_of_cycle R s.
Proof.
  intros (c & Cyc & Reach). apply clos_rt_rtn1 in Reach.
  inversion Reach as [|s ? Hst Hcs]; subst.
  - destruct (cycle_pred Cyc) as (s & Hs & Cs).
    exists s. split; [exact Hs|]. exists s. split; [exact Cs | apply rt_refl].
  - exists s. split; [exact Hst|]. exists c.
    split; [exact Cyc | now apply clos_rtn1_rt].
Qed.

Lemma walk_back (P : string -> Prop) :
  (forall t, P t -> exists s, P s /\ R s t) ->
  forall t0, P t0 ->
  forall n, exists l : list string,
    length l = n /\ walk R (l ++ [t0]) /\ (forall x, In x (l ++ [t0]) -> P x).
Proof.
  intros Hpred t0 P0 n. induction n as [|n (l & Hlen & W & HP)].
  - exists []. split; [reflexivity|]. split; [constructor|].
    intros x [<-|[]]. exact P0.
  - destruct l as [|y l].
    + destruct (Hpred t0 P0) as (x & Px & Hx).
      exists [x]. split; [simpl in *; lia|]. split.
      * simpl. constructor; [exact Hx | constructor].
      * intros z [<-|[<-|[]]]; assumption.
    + destruct (Hpred y) as (x & Px & Hx); [apply HP; now left|].
      exists (x :: y :: l). split; [simpl in *; lia|]. split.
      * simpl. constructor; [exact Hx | exact W].
      * intros z [<-|Iz]; [exact Px | now apply HP].
Qed.

Lemma walk_repeat_reach l : forall t0,
  walk R (l ++ [t0]) -> ~ NoDup (l ++ [t0]) ->
  exists v, In v (l ++ [t0]) /\ clos_trans string R v v /\
            clos_refl_trans string R v t0.
Proof.
  induction l as [|x l IH]; intros t0 W N.
  - exfalso. apply N. simpl. constructor; [intros []|constructor].
  - simpl in W, N. destruct (in_dec string_dec x (l ++ [t0])) as [I|NI].
    + exists x. split; [now left|]. split.
      * now apply walk_reach with (l ++ [t0]).
      * apply trans_refl_trans. apply walk_reach with (l ++ [t0]);
          [exact W|]. rewrite in_app_iff. right. now left.
    + destruct (IH t0) as (v & Iv & Cv & Rv).
      * apply walk_tail with x; [exact W|].
        intros E. apply app_eq_nil in E. destruct E. discriminate.
      * intros ND. apply N. now constructor.
      * exists v. split; [now right | tauto].
Qed.

(** In a set contained in a finite list and closed under taking some
    predecessor, every element is downstream of a cycle of the set. *)
Lemma closed_set_cycle (P : string -> Prop) (U : list string) :
  (forall t, P t -> In t U) ->
  (forall t, P t -> exists s, P s /\ R s t) ->
  forall t0, P t0 ->
  exists v, P v /\ clos_trans string R v v /\ clos_refl_trans string R v t0.
Proof.
  intros Hfin Hpred t0 P0.
  destruct (walk_back P Hpred t0 P0 (length U)) as (l & Hlen & W & HP).
  destruct (walk_repeat_reach l t0 W) as (v & Iv & Cv & Rv).
  - intros ND.
    assert (Hincl : incl (l ++ [t0]) U) by (intros x Ix; apply Hfin, HP, Ix).
    apply (NoDup_incl_length ND) in Hincl.
    rewrite length_app in Hincl. simpl in Hincl. lia.
  - exists v. split; [now apply HP | tauto].
Qed.

End Downstream.

Lemma downstream_ext (R1 R2 : string -> string -> Prop) :
  (forall x y, R1 x y <-> R2 x y) ->
  forall t, downstream_of_cycle R1 t <-> downstream_of_cycle R2 t.
Proof.
  assert (H : forall (Ra Rb : string -> string -> Prop),
            (forall x y, Ra x y -> Rb x y) ->
            forall t, downstream_of_cycle Ra t -> downstream_of_cycle Rb t).
  { intros Ra Rb Hab t (c & Cyc & Reach). exists c. split.
    - revert Cyc. now apply clos_trans_ext.
    - clear Cyc. induction Reach as [x y HR|x|x y z _ IH1 _ IH2].
      + apply rt_step. auto.
      + apply rt_refl.
      + now apply rt_trans with y. }
  intros E t. split; apply H; intros x y; apply E.
Qed.

Section Unvisited.

Variable graph : Dict.t (list string).
Variable K : list string.
Hypothesis graph_keys : Dict.keys graph = K.

Lemma loop_exit_downstream todo in_degree :
  loop_inv graph K todo in_degree [] ->
  forall t, In t todo <->
            In t K /\ downstream_of_cycle (graph_rel graph) t.
Proof.
  intros (HKd & NDt & Hincl & NDq & HQ & HC & HE & HG) t. split.
  - intros It. split; [now apply Hincl|].
    destruct (@closed_set_cycle (graph_rel graph) (fun x => In x todo) todo)
      with (t0 := t) as (v & _ & Cv & Rv); auto.
    + intros x Ix.
      assert (Hp : pending graph todo x <> 0).
      { intros Hp. apply (proj2 (HQ x)). split; [exact Ix|].
        rewrite (HC x (Hincl x Ix)), Hp. reflexivity. }
      destruct (list_sum_map_pos _ _ Hp) as (s & Is & Hs).
      exists s. split; [exact Is|]. unfold graph_rel.
      apply (count_occ_In string_dec). lia.
    + exists v. tauto.
  - intros [It Dt].
    destruct (in_dec string_dec t todo) as [I|N]; [exact I|]. exfalso.
    destruct (@closed_set_cycle (graph_rel graph)
                (fun x => In x K /\ ~ In x todo /\
                          downstream_of_cycle (graph_rel graph) x) K)
      with (t0 := t) as (v & (Iv & Nv & _) & Cv & _); try tauto.
    + intros x (Ix & Nx & Dx).
      destruct (downstream_pred Dx) as (s & Hsx & Ds).
      assert (Is : In s K) by (eapply graph_rel_key; eauto).
      exists s. split; [|exact Hsx]. split; [exact Is|]. split; [|exact Ds].
      pose proof (HE x Ix Nx) as D0. rewrite (HC x Ix) in D0.
      injection D0 as D0.
      eapply pending_zero_no_pred; [|exact Hsx]. lia.
    + exact (HG v Iv (HE v Iv Nv) Cv).
Qed.

Lemma kahn_loop_final fuel : forall todo in_degree queue visited_count,
  loop_inv graph K todo in_degree queue ->
  length todo <= fuel ->
  exists (todo' : list string) (in_degree' : Dict.t Z),
    kahn_loop fuel graph in_degree queue visited_count =
      Return (visited_count + Z.of_nat (length todo)
              - Z.of_nat (length todo'))%Z /\
    length todo' <= length todo /\
    loop_inv graph K todo' in_degree' [].
Proof.
  induction fuel as [|fuel IH]; intros todo in_degree queue visited I Hlen.
  - destruct queue as [|u queue].
    + exists todo, in_degree. simpl. split; [f_equal; lia|].
      split; [lia | exact I].
    + destruct (pop_inv graph_keys I) as (todo' & Hl & _). lia.
  - destruct queue as [|u queue].
    + exists todo, in_degree. simpl. split; [f_equal; lia|].
      split; [lia | exact I].
    + destruct (pop_inv graph_keys I) as (todo1 & Hl & I1).
      destruct (relax_all graph_keys I1) as (d2 & q2 & E2 & I2).
      destruct (IH todo1 d2 q2 (visited + 1)%Z I2)
        as (todo' & d' & E & Hl' & I'); [lia|].
      exists todo', d'. cbn [kahn_loop]. fold (successors_of graph u).
      rewrite E2. cbn [bind]. rewrite E.
      split; [f_equal; lia|]. split; [lia | exact I'].
Qed.

End Unvisited.

Lemma kahn_loop_counts_order graph fuel : forall in_degree queue visited_count,
  kahn_loop fuel graph in_degree queue visited_count =
  (order <- kahn_order fuel graph in_degree queue ;;
   Return (visited_count + len order)%Z).
Proof.
  induction fuel as [|fuel IH]; intros in_degree queue visited.
  - destruct queue; simpl; [|reflexivity]. f_equal. unfold len. simpl. lia.
  - destruct queue as [|u queue]; cbn [kahn_loop kahn_order].
    + cbn [bind]. f_equal. unfold len. simpl. lia.
    + destruct (foldM relax (Dict.get_default graph u []) (in_degree, queue))
        as [[d q]| |]; cbn [bind]; try reflexivity.
      rewrite IH.
      destruct (kahn_order fuel graph d q) as [order| |]; cbn [bind];
        try reflexivity.
      f_equal. unfold len. cbn [length]. lia.
Qed.

Lemma kahn_order_more_fuel graph fuel : forall fuel' in_degree queue order,
  kahn_order fuel graph in_degree queue = Return order ->
  fuel <= fuel' ->
  kahn_order fuel' graph in_degree queue = Return order.
Proof.
  induction fuel as [|fuel IH]; intros fuel' in_degree queue order E Hle.
  - destruct queue; [|discriminate]. destruct fuel'; exact E.
  - destruct queue as [|u queue]; [destruct fuel'; exact E|].
    destruct fuel' as [|fuel']; [lia|]. cbn [kahn_order] in *.
    destruct (foldM relax (Dict.get_default graph u []) (in_degree, queue))
      as [[d q]| |]; cbn [bind] in *; try discriminate.
    destruct (kahn_order fuel graph d q) as [rest| |] eqn:K1;
      cbn [bind] in *; try discriminate.
    rewrite (IH fuel' d q rest K1) by lia. exact E.
Qed.

Section VisitOrder.

Variable graph : Dict.t (list string).
Variable K : list string.
Hypothesis graph_keys : Dict.keys graph = K.

(** Popping the head of the queue removes it from the identifiers still to
    be visited. *)
Lemma pop_inv_split todo u queue in_degree :
  loop_inv graph K todo in_degree (u :: queue) ->
  exists todo' : list string,
    length todo = S (length todo') /\
    ~ In u todo' /\
    (forall x, In x todo <-> x = u \/ In x todo') /\
    relax_inv graph K todo' (successors_of graph u) in_degree queue.
Proof.
  intros I. pose proof I as (HKd & NDt & Hincl & NDq & HQ & HC & HE & HG).
  destruct (proj1 (HQ u) (or_introl eq_refl)) as [Iu Du].
  destruct (in_split _ _ Iu) as (l1 & l2 & ->).
  exists (l1 ++ l2).
  pose proof (NoDup_remove_1 _ _ _ NDt) as NDt'.
  pose proof (NoDup_remove_2 _ _ _ NDt) as Nu.
  inversion NDq as [|? ? Nq NDq']; subst.
  assert (Hsub : forall t, In t (l1 ++ u :: l2) <-> t = u \/ In t (l1 ++ l2)).
  { intros t. rewrite !in_app_iff. simpl.
    split; [intros [H|[H|H]] | intros [H|[H|H]]]; auto. }
  split; [rewrite !length_app; simpl; lia|]. split; [exact Nu|].
  split; [exact Hsub|].
  split; [exact HKd|]. split; [exact NDt'|]. split.
  { intros t It. apply Hincl. apply Hsub. now right. }
  split; [exact NDq'|]. split; [|split; [|split]].
  - intros t. split.
    + intros It. destruct (proj1 (HQ t) (or_intror It)) as [It' Dt].
      split; [|exact Dt]. apply Hsub in It'.
      destruct It' as [->|It']; [tauto | exact It'].
    + intros [It Dt].
      destruct (proj2 (HQ t) (conj (proj2 (Hsub t) (or_intror It)) Dt))
        as [<-|I']; [tauto | exact I'].
  - intros t It. rewrite (HC t It). f_equal. f_equal. unfold pending.
    rewrite list_sum_map_remove. simpl. lia.
  - intros t It Nt. destruct (string_dec t u) as [->|Hne]; [exact Du|].
    apply HE; [exact It|]. rewrite Hsub. tauto.
  - exact HG.
Qed.

(** The visited identifiers and the ones left at the end split the
    identifiers that were still to be visited. *)
Lemma kahn_order_spec fuel : forall todo in_degree queue,
  loop_inv graph K todo in_degree queue ->
  length todo <= fuel ->
  exists (order todo' : list string) (in_degree' : Dict.t Z),
    kahn_order fuel graph in_degree queue = Return order /\
    loop_inv graph K todo' in_degree' [] /\
    NoDup order /\
    (forall x, In x todo <-> In x order \/ In x todo') /\
    (forall x, In x order -> ~ In x todo').
Proof.
  induction fuel as [|fuel IH]; intros todo in_degree queue I Hlen.
  - destruct queue as [|u queue].
    + exists [], todo, in_degree. simpl. split; [reflexivity|].
      split; [exact I|]. split; [constructor|]. split; tauto.
    + destruct (pop_inv_split I) as (todo' & Hl & _). lia.
  - destruct queue as [|u queue].
    + exists [], todo, in_degree. simpl. split; [reflexivity|].
      split; [exact I|]. split; [constructor|]. split; tauto.
    + destruct (pop_inv_split I) as (todo1 & Hl & Nu & Hsplit & I1).
      destruct (relax_all graph_keys I1) as (d2 & q2 & E2 & I2).
      destruct (IH todo1 d2 q2 I2)
        as (order & todo' & d' & E & I' & NDo & Hpart & Hdisj); [lia|].
      exists (u :: order), todo', d'.
      cbn [kahn_order]. fold (successors_of graph u).
      rewrite E2. cbn [bind]. rewrite E. cbn [bind].
      split; [reflexivity|]. split; [exact I'|].
      assert (Nuo : ~ In u order).
      { intros Io. apply Nu. apply Hpart. now left. }
      assert (Nut : ~ In u todo').
      { intros It. apply Nu. apply Hpart. now right. }
      split; [now constructor|]. split.
      * intros x. rewrite Hsplit, Hpart. simpl.
        split; [intros [H|[H|H]] | intros [[H|H]|H]]; auto.
      * intros x [<-|Ix]; [exact Nut | now apply Hdisj].
Qed.

End VisitOrder.

(** X7.  The identifiers that the worklist visits are pairwise distinct
    submitted identifiers, [visited_count] is their number, and a submitted
    identifier is never visited exactly when it lies on a cycle of the kept
    edges or can be reached from one. *)
Theorem worklist_skips_downstream_of_cycles (nodes : list Node)
    (edges : list Edge) :
  exists visited : list string,
    (forall fuel, distinct_ids nodes <= fuel ->
       visit_order fuel nodes edges = Return visited /\
       count_visited fuel nodes edges = Return (len visited)) /\
    NoDup visited /\
    (forall t, In t visited -> In t (map node_id nodes)) /\
    (forall t, In t (map node_id nodes) ->
       (~ In t visited <->
        downstream_of_cycle (kept_rel nodes edges) t)).
Proof.
  destruct (tables_built nodes edges) as (g & d & K & E & B & HK).
  pose proof (initial_inv B) as I.
  destruct B as (HKg & HKd & ND & HD & HG).
  pose proof (@keys_length K _ ND HK) as HL. fold (distinct_ids nodes) in HL.
  destruct (@kahn_order_spec g K HKg (distinct_ids nodes) K d
              (zero_in_degree d) I)
    as (order & todo & d' & Eo & I' & NDo & Hpart & Hdisj); [lia|].
  assert (Hmore : forall fuel, distinct_ids nodes <= fuel ->
            kahn_order fuel g d (zero_in_degree d) = Return order).
  { intros fuel Hf. eapply kahn_order_more_fuel; [exact Eo | exact Hf]. }
  exists order. split; [|split; [exact NDo|split]].
  - intros fuel Hf. unfold visit_order, count_visited, build_tables.
    rewrite E. cbn [bind]. rewrite kahn_loop_counts_order.
    rewrite (Hmore fuel Hf). cbn [bind]. split; reflexivity.
  - intros t It. apply HK. apply Hpart. now left.
  - intros t It. apply HK in It.
    assert (Hrel : forall x y, graph_rel g x y <-> kept_rel nodes edges x y).
    { intros x y. rewrite HG. unfold kept_rel. rewrite !HK. tauto. }
    rewrite <- (downstream_ext _ _ Hrel t).
    pose proof (loop_exit_downstream HKg I' t) as Hd.
    split.
    + intros Nt. apply Hd.
      destruct (proj1 (Hpart t) It) as [Io|Ito]; [tauto | exact Ito].
    + intros Dt Io. apply (Hdisj t Io). apply Hd. tauto.
Qed.

Example cycle_blocks_its_successors :
  count_visited 4
    [mk_node "A"; mk_node "B"; mk_node "C"; mk_node "D"]
    [mk_edge "A" "B"; mk_edge "B" "C"; mk_edge "C" "B"; mk_edge "C" "D"] =
  Return 1%Z.
Proof. reflexivity. Qed.

Example visit_order_stops_before_cycle :
  visit_order 5
    [mk_node "E"; mk_node "B"; mk_node "C"; mk_node "D"; mk_node "A"]
    [mk_edge "A" "B"; mk_edge "B" "C"; mk_edge "C" "B"; mk_edge "C" "D";
     mk_edge "E" "A"] =
  Return ["E"; "A"]%string.
Proof. reflexivity. Qed.

(** ** Further properties of [parse_pipeline] *)

Lemma edge_ok_same_ids nodes1 nodes2 e :
  (forall x, In x (map node_id nodes1) <-> In x (map node_id nodes2)) ->
  (edge_ok nodes1 e <-> edge_ok nodes2 e).
Proof.
  intros H. unfold edge_ok. now rewrite !H.
Qed.

Lemma edge_error_same_ids nodes1 nodes2 e :
  (forall x, In x (map node_id nodes1) <-> In x (map node_id nodes2)) ->
  edge_error nodes1 e = edge_error nodes2 e.
Proof.
  intros H. unfold edge_error.
  destruct (in_dec string_dec (source e) (map node_id nodes1)) as [I1|N1];
    destruct (in_dec string_dec (source e) (map node_id nodes2)) as [I2|N2];
    try reflexivity; exfalso.
  - apply N2, H, I1.
  - apply N1, H, I2.
Qed.

(** X8.  For a request with pairwise distinct node identifiers,
    [parse_pipeline] returns a response whose [is_dag] field is [true]
    exactly when every edge joins two submitted nodes and the edges form no
    directed cycle. *)
Theorem parse_pipeline_accepts_dags (request : PipelineRequest) :
  NoDup (map node_id (nodes request)) ->
  ((exists response,
      parse_pipeline request = Return response /\
      resp_is_dag response = true) <->
   (references_ok (nodes request) (edges request) /\
    acyclic (edge_rel (edges request)))).
Proof.
  intros ND.
  destruct (first_bad_edge (nodes request) (edges request))
    as [All|(pre & e & post & E & Hpre & Hbad)].
  - destruct (@parse_pipeline_ok request All) as (b & Hb & R).
    destruct (is_dag_verdict_cases (nodes request) (edges request))
      as (b' & Hb' & Hcases).
    rewrite Hb in Hb'. injection Hb' as <-.
    assert (Hrel : acyclic (kept_rel (nodes request) (edges request)) <->
                   acyclic (edge_rel (edges request)))
      by (apply acyclic_ext, kept_rel_references_ok; exact All).
    rewrite R. split.
    + intros (response & Hr & Ht). injection Hr as <-. simpl in Ht.
      split; [exact All|].
      destruct (proj1 Hcases Ht) as [H0|[H0|[_ A]]].
      * destruct (edges request) as [|e0 es];
          [apply acyclic_empty, edge_rel_nil|].
        destruct (All e0 (or_introl eq_refl)) as [Hs _].
        rewrite H0 in Hs. destruct Hs.
      * rewrite H0. apply acyclic_empty, edge_rel_nil.
      * now apply Hrel.
    + intros [_ A]. eexists. split; [reflexivity|]. simpl.
      apply Hcases. right. right. split; [exact ND | now apply Hrel].
  - rewrite (@parse_pipeline_bad request pre e post E Hpre Hbad). split.
    + intros (response & Hr & _). discriminate.
    + intros [Hok _]. exfalso. apply Hbad, Hok.
      rewrite E, in_app_iff. right. now left.
Qed.

Lemma parse_pipeline_accepts_dags_witness :
  (exists response,
     parse_pipeline plain_request = Return response /\
     resp_is_dag response = true) <->
  (references_ok (nodes plain_request) (edges plain_request) /\
   acyclic (edge_rel (edges plain_request))).
Proof.
  apply (@parse_pipeline_accepts_dags plain_request).
  simpl. repeat constructor; simpl; intuition discriminate.
Defined.

(** X9.  Whether [parse_pipeline] raises, and which error, depends on the
    node list only through the set of its identifiers: two requests with the
    same edges whose node lists have the same identifiers, in any order and
    with any repetitions, raise the same errors. *)
Theorem parse_pipeline_errors_same_ids (request1 request2 : PipelineRequest) :
  edges request1 = edges request2 ->
  (forall x, In x (map node_id (nodes request1)) <->
             In x (map node_id (nodes request2))) ->
  forall x, parse_pipeline request1 = Raise x <->
            parse_pipeline request2 = Raise x.
Proof.
  intros Ee Hids x.
  destruct (first_bad_edge (nodes request1) (edges request1))
    as [All|(pre & e & post & E & Hpre & Hbad)].
  - assert (All2 : forall e, In e (edges request2) ->
                     edge_ok (nodes request2) e).
    { intros e I. apply (@edge_ok_same_ids _ _ e Hids). apply All.
      now rewrite Ee. }
    destruct (@parse_pipeline_ok request1 All) as (b1 & _ & ->).
    destruct (@parse_pipeline_ok request2 All2) as (b2 & _ & ->).
    split; discriminate.
  - rewrite (@parse_pipeline_bad request1 pre e post E Hpre Hbad).
    rewrite (@parse_pipeline_bad request2 pre e post).
    + now rewrite (@edge_error_same_ids _ _ e Hids).
    + now rewrite <- Ee.
    + intros e' I. apply (@edge_ok_same_ids _ _ e' Hids). now apply Hpre.
    + intros Ok. apply Hbad. now apply (@edge_ok_same_ids _ _ e Hids).
Qed.

Lemma parse_pipeline_errors_same_ids_witness :
  parse_pipeline {| nodes := [mk_node "A"; mk_node "B"];
                    edges := [mk_edge "A" "B"; mk_edge "B" "ghost"] |} =
    Raise (target_error (mk_edge "B" "ghost")) <->
  parse_pipeline {| nodes := [mk_node "B"; mk_node "A"; mk_node "B"];
                    edges := [mk_edge "A" "B"; mk_edge "B" "ghost"] |} =
    Raise (target_error (mk_edge "B" "ghost")).
Proof.
  apply (@parse_pipeline_errors_same_ids
           {| nodes := [mk_node "A"; mk_node "B"];
              edges := [mk_edge "A" "B"; mk_edge "B" "ghost"] |}
           {| nodes := [mk_node "B"; mk_node "A"; mk_node "B"];
              edges := [mk_edge "A" "B"; mk_edge "B" "ghost"] |}).
  - reflexivity.
  - intros x. simpl. tauto.
Defined.

(** ** The store *)

Lemma update_length h a c :
  length (Stateful.update h a c) = length h.
Proof.
  revert a. induction h as [|x h IH]; intros [|a]; simpl; auto.
Qed.

Lemma nth_error_update_same h a c :
  a < length h -> nth_error (Stateful.update h a c) a = Some c.
Proof.
  revert a. induction h as [|x h IH]; intros [|a] H; simpl in *;
    try lia; [reflexivity|]. apply IH. lia.
Qed.

Lemma nth_error_update_other h a a' c :
  a <> a' -> nth_error (Stateful.update h a c) a' = nth_error h a'.
Proof.
  revert a a'. induction h as [|x h IH]; intros [|a] [|a'] H; simpl;
    try reflexivity; try congruence.
  apply IH. congruence.
Qed.

Lemma nth_error_lt {A : Type} (l : list A) a x :
  nth_error l a = Some x -> a < length l.
Proof.
  intros H. apply nth_error_Some. congruence.
Qed.

Lemma nth_error_snoc_old {A : Type} (l : list A) x a :
  a < length l -> nth_error (l ++ [x]) a = nth_error l a.
Proof.
  intros H. now apply nth_error_app1.
Qed.

Lemma nth_error_snoc_new {A : Type} (l : list A) x :
  nth_error (l ++ [x]) (length l) = Some x.
Proof.
  rewrite nth_error_app2 by lia. now rewrite Nat.sub_diag.
Qed.

Lemma run_bind {A B : Type} (m : Stateful.M A) (k : A -> Stateful.M B)
    h a h' :
  m h = Stateful.Ran (Return a) h' -> Stateful.bindM m k h = k a h'.
Proof.
  intros E. unfold Stateful.bindM. now rewrite E.
Qed.

Lemma run_load h a c :
  nth_error h a = Some c -> Stateful.load a h = Stateful.Ran (Return c) h.
Proof.
  intros E. unfold Stateful.load. now rewrite E.
Qed.

Lemma run_load_nodes h a l :
  nth_error h a = Some (Stateful.NodeList l) ->
  Stateful.load_nodes a h = Stateful.Ran (Return l) h.
Proof.
  intros E. unfold Stateful.load_nodes, Stateful.bindM, Stateful.load.
  now rewrite E.
Qed.

Lemma run_load_edges h a l :
  nth_error h a = Some (Stateful.EdgeList l) ->
  Stateful.load_edges a h = Stateful.Ran (Return l) h.
Proof.
  intros E. unfold Stateful.load_edges, Stateful.bindM, Stateful.load.
  now rewrite E.
Qed.

Lemma run_load_strs h a l :
  nth_error h a = Some (Stateful.StrList l) ->
  Stateful.load_strs a h = Stateful.Ran (Return l) h.
Proof.
  intros E. unfold Stateful.load_strs, Stateful.bindM, Stateful.load.
  now rewrite E.
Qed.

Lemma run_load_set h a s :
  nth_error h a = Some (Stateful.StrSet s) ->
  Stateful.load_set a h = Stateful.Ran (Return s) h.
Proof.
  intros E. unfold Stateful.load_set, Stateful.bindM, Stateful.load.
  now rewrite E.
Qed.

Lemma run_load_list_dict h a d :
  nth_error h a = Some (Stateful.ListDict d) ->
  Stateful.load_list_dict a h = Stateful.Ran (Return d) h.
Proof.
  intros E. unfold Stateful.load_list_dict, Stateful.bindM, Stateful.load.
  now rewrite E.
Qed.

Lemma run_load_int_dict h a d :
  nth_error h a = Some (Stateful.IntDict d) ->
  Stateful.load_int_dict a h = Stateful.Ran (Return d) h.
Proof.
  intros E. unfold Stateful.load_int_dict, Stateful.bindM, Stateful.load.
  now rewrite E.
Qed.

Lemma run_store h a c :
  a < length h ->
  Stateful.store a c h = Stateful.Ran (Return tt) (Stateful.update h a c).
Proof.
  intros H. unfold Stateful.store.
  now rewrite (proj2 (Nat.ltb_lt _ _) H).
Qed.

Lemma frame_refl n h : Stateful.frame n h h.
Proof.
  split; auto.
Qed.

Lemma frame_trans n h1 h2 h3 :
  Stateful.frame n h1 h2 -> Stateful.frame n h2 h3 -> Stateful.frame n h1 h3.
Proof.
  intros [L1 F1] [L2 F2]. split; [lia|].
  intros a Ha. now rewrite F2, F1.
Qed.

Lemma frame_weaken n n' h h' :
  n' <= n -> Stateful.frame n h h' -> Stateful.frame n' h h'.
Proof.
  intros Hle [L F]. split; [exact L|]. intros a Ha. apply F. lia.
Qed.

Lemma frame_snoc n h c :
  n <= length h -> Stateful.frame n h (h ++ [c]).
Proof.
  intros Hn. split; [rewrite length_app; lia|].
  intros a Ha. apply nth_error_snoc_old. lia.
Qed.

Lemma frame_update n h a c :
  n <= a -> Stateful.frame n h (Stateful.update h a c).
Proof.
  intros Hn. split; [rewrite update_length; lia|].
  intros a' Ha. apply nth_error_update_other. lia.
Qed.

Lemma graph_at_update n h ga gd g a c :
  Stateful.graph_at n h ga gd g -> Stateful.outside ga gd a ->
  Stateful.graph_at n (Stateful.update h a c) ga gd g.
Proof.
  intros (Hn & Hg & HK & Hcells & Hinj) [Ha Hout].
  split; [exact Hn|]. split.
  { rewrite nth_error_update_other by exact Ha. exact Hg. }
  split; [exact HK|]. split; [|exact Hinj].
  intros k b Hb. destruct (Hcells k b Hb) as (Hnb & Hbg & l & Hl & Hc).
  split; [exact Hnb|]. split; [exact Hbg|]. exists l. split; [exact Hl|].
  rewrite nth_error_update_other; [exact Hc|].
  intros ->. exact (Hout k Hb).
Qed.

Lemma graph_at_snoc n h ga gd g c :
  Stateful.graph_at n h ga gd g ->
  Stateful.graph_at n (h ++ [c]) ga gd g.
Proof.
  intros (Hn & Hg & HK & Hcells & Hinj).
  split; [exact Hn|]. split.
  { rewrite nth_error_snoc_old; [exact Hg | eapply nth_error_lt; eauto]. }
  split; [exact HK|]. split; [|exact Hinj].
  intros k b Hb. destruct (Hcells k b Hb) as (Hnb & Hbg & l & Hl & Hc).
  split; [exact Hnb|]. split; [exact Hbg|]. exists l. split; [exact Hl|].
  rewrite nth_error_snoc_old; [exact Hc | eapply nth_error_lt; eauto].
Qed.

Lemma outside_fresh n h ga gd g :
  Stateful.graph_at n h ga gd g -> Stateful.outside ga gd (length h).
Proof.
  intros (Hn & Hg & HK & Hcells & Hinj). split.
  - apply nth_error_lt in Hg. lia.
  - intros k Hk. destruct (Hcells k _ Hk) as (_ & _ & l & _ & Hc).
    apply nth_error_lt in Hc. lia.
Qed.

Lemma run_alloc c h :
  Stateful.alloc c h = Stateful.Ran (Return (length h)) (h ++ [c]).
Proof.
  reflexivity.
Qed.

Lemma run_lift {A : Type} (o : outcome A) a h :
  o = Return a -> Stateful.lift o h = Stateful.Ran (Return a) h.
Proof.
  intros ->. reflexivity.
Qed.

Ltac run_by L := erewrite run_bind by (apply L; eassumption); cbv beta.

Lemma contains_same_keys {V W : Type} (d : Dict.t V) (d' : Dict.t W) k :
  Dict.keys d = Dict.keys d' -> Dict.contains d k = Dict.contains d' k.
Proof.
  intros E. apply bool_iff_eq. rewrite !DictFacts.contains_in. now rewrite E.
Qed.

(** ** The store-based program computes what the pure one computes *)

Lemma init_node_sim n h ga da gd g deg node :
  Stateful.tables_at n h ga da gd g deg ->
  exists h' gd',
    Stateful.init_node ga da node h = Stateful.Ran (Return tt) h' /\
    Stateful.tables_at n h' ga da gd'
      (Dict.set g (node_id node) []) (Dict.set deg (node_id node) 0%Z) /\
    Stateful.frame n h h'.
Proof.
  intros (G & Hda & Oda & Hd).
  pose proof G as (Hn & Hg & HK & Hcells & Hinj).
  pose proof (nth_error_lt _ _ Hg) as Lg.
  pose proof (nth_error_lt _ _ Hd) as Ld.
  destruct Oda as [Hdg Oda].
  set (h1 := h ++ [Stateful.StrList []]).
  set (gd' := Dict.set gd (node_id node) (length h)).
  set (h2 := Stateful.update h1 ga (Stateful.ListDict gd')).
  set (h3 := Stateful.update h2 da
               (Stateful.IntDict (Dict.set deg (node_id node) 0%Z))).
  assert (L1 : length h1 = S (length h))
    by (unfold h1; rewrite length_app; simpl; lia).
  assert (Hg1 : nth_error h1 ga = Some (Stateful.ListDict gd))
    by (unfold h1; rewrite nth_error_snoc_old; assumption).
  assert (L2 : length h2 = S (length h))
    by (unfold h2; rewrite update_length; exact L1).
  assert (Hd2 : nth_error h2 da = Some (Stateful.IntDict deg)).
  { unfold h2. rewrite nth_error_update_other by congruence.
    unfold h1. rewrite nth_error_snoc_old; assumption. }
  exists h3, gd'. split; [|split].
  - unfold Stateful.init_node.
    erewrite run_bind by apply run_alloc. cbv beta. fold h1.
    run_by run_load_list_dict.
    erewrite run_bind by (apply run_store; lia). cbv beta.
    fold gd'. fold h2.
    run_by run_load_int_dict.
    apply run_store. lia.
  - assert (Hcell : forall a c, a <> ga -> a <> da ->
                      nth_error h1 a = Some c -> nth_error h3 a = Some c).
    { intros a c H1 H2 H3. unfold h3, h2.
      rewrite !nth_error_update_other by congruence. exact H3. }
    split; [|split; [exact Hda|split]].
    + split; [exact Hn|]. split.
      { unfold h3. rewrite nth_error_update_other by congruence.
        unfold h2. apply nth_error_update_same. lia. }
      split; [now apply keys_set_same_keys|]. split.
      * intros k a. unfold gd'.
        destruct (string_dec (node_id node) k) as [<-|Hne].
        -- rewrite DictFacts.get_set_same. intros Ea. injection Ea as <-.
           split; [lia|]. split; [lia|]. exists [].
           split; [apply DictFacts.get_set_same|].
           apply Hcell; [lia | lia |]. apply nth_error_snoc_new.
        -- rewrite DictFacts.get_set_other by exact Hne. intros Ea.
           destruct (Hcells k a Ea) as (Hna & Hag & l & Hl & Hc).
           split; [exact Hna|]. split; [exact Hag|]. exists l.
           split; [now rewrite DictFacts.get_set_other|].
           apply Hcell; [exact Hag | intros ->; exact (Oda k Ea) |].
           unfold h1. rewrite nth_error_snoc_old;
             [exact Hc | eapply nth_error_lt; eauto].
      * assert (Hold : forall k a, Dict.get gd k = Some a -> a < length h).
        { intros k a Ea. destruct (Hcells k a Ea) as (_ & _ & l & _ & Hc).
          eapply nth_error_lt; eauto. }
        intros k k' a. unfold gd'.
        destruct (string_dec (node_id node) k) as [<-|Hk];
          destruct (string_dec (node_id node) k') as [<-|Hk'];
          rewrite ?DictFacts.get_set_same, ?DictFacts.get_set_other
            by assumption; auto.
        -- intros Ea Ea'. injection Ea as <-.
           apply Hold in Ea'. lia.
        -- intros Ea Ea'. injection Ea' as <-.
           apply Hold in Ea. lia.
        -- apply Hinj.
    + split; [exact Hdg|]. intros k. unfold gd'.
      destruct (string_dec (node_id node) k) as [<-|Hne].
      * rewrite DictFacts.get_set_same. intros Ea. injection Ea as Ea. lia.
      * rewrite DictFacts.get_set_other by exact Hne. apply Oda.
    + unfold h3. apply nth_error_update_same. lia.
  - apply frame_trans with h1; [apply frame_snoc; lia|].
    apply frame_trans with h2; apply frame_update; assumption.
Qed.

Lemma add_edge_sim n h ga da gd g deg e :
  Stateful.tables_at n h ga da gd g deg ->
  exists h' g' deg',
    add_edge (g, deg) e = Return (g', deg') /\
    Stateful.add_edge ga da e h = Stateful.Ran (Return tt) h' /\
    Stateful.tables_at n h' ga da gd g' deg' /\
    Stateful.frame n h h'.
Proof.
  intros T. pose proof T as (G & Hda & Oda & Hd).
  pose proof G as (Hn & Hg & HK & Hcells & Hinj).
  pose proof (nth_error_lt _ _ Hd) as Ld.
  destruct Oda as [Hdg Oda].
  unfold add_edge, Stateful.add_edge.
  run_by run_load_list_dict.
  rewrite !(contains_same_keys gd g _ HK).
  destruct (Dict.contains g (source e) && Dict.contains g (target e)) eqn:C.
  - apply andb_true_iff in C. destruct C as [Cs Ct].
    assert (Cs' : Dict.contains gd (source e) = true)
      by now rewrite (contains_same_keys gd g _ HK).
    destruct (DictFacts.getitem_contains _ _ Cs') as (a & Ga & Ea).
    destruct (Hcells _ _ Ea) as (Hna & Hag & l & Hl & Hc).
    pose proof (nth_error_lt _ _ Hc) as La.
    assert (Had : a <> da) by (intros ->; exact (Oda _ Ea)).
    assert (Gl : Dict.getitem g (source e) = Return l)
      by (unfold Dict.getitem; now rewrite Hl).
    rewrite Gl. cbn [bind].
    set (h1 := Stateful.update h a (Stateful.StrList (l ++ [target e]))).
    set (deg' := Dict.set deg (target e)
                   (Dict.get_default deg (target e) 0 + 1)%Z).
    set (h2 := Stateful.update h1 da (Stateful.IntDict deg')).
    assert (L1 : length h1 = length h) by apply update_length.
    assert (Hd1 : nth_error h1 da = Some (Stateful.IntDict deg)).
    { unfold h1. rewrite nth_error_update_other by exact Had. exact Hd. }
    eexists h2, _, _. split; [reflexivity|]. split; [|split].
    + erewrite run_bind by (apply run_lift; exact Ga). cbv beta.
      run_by run_load_strs.
      erewrite run_bind by (apply run_store; exact La). cbv beta. fold h1.
      run_by run_load_int_dict.
      apply run_store. lia.
    + split; [|split; [exact Hda|split; [split; assumption|]]].
      * split; [exact Hn|]. split.
        { unfold h2, h1. rewrite !nth_error_update_other by congruence.
          exact Hg. }
        split.
        { rewrite DictFacts.keys_set_in; [exact HK|].
          now apply DictFacts.contains_in. }
        split; [|exact Hinj].
        intros k b Eb. destruct (Hcells k b Eb) as (Hnb & Hbg & l' & Hl' & Hc').
        split; [exact Hnb|]. split; [exact Hbg|].
        assert (Hbd : b <> da) by (intros ->; exact (Oda _ Eb)).
        destruct (string_dec (source e) k) as [<-|Hne].
        -- assert (b = a) by congruence. subst b.
           exists (l ++ [target e]). split; [apply DictFacts.get_set_same|].
           unfold h2. rewrite nth_error_update_other by congruence.
           unfold h1. now apply nth_error_update_same.
        -- exists l'. split; [now rewrite DictFacts.get_set_other|].
           assert (b <> a).
           { intros ->. apply Hne. exact (Hinj _ _ _ Ea Eb). }
           unfold h2, h1. rewrite !nth_error_update_other by congruence.
           exact Hc'.
      * unfold h2. apply nth_error_update_same. lia.
    + apply frame_trans with h1; apply frame_update; assumption.
  - exists h, g, deg. split; [reflexivity|]. split; [reflexivity|].
    split; [exact T | apply frame_refl].
Qed.

Lemma init_nodes_sim n ga da nodes : forall h gd g deg,
  Stateful.tables_at n h ga da gd g deg ->
  exists h' gd',
    Stateful.for_each (Stateful.init_node ga da) nodes h =
      Stateful.Ran (Return tt) h' /\
    Stateful.tables_at n h' ga da gd'
      (fst (fold_left init_node nodes (g, deg)))
      (snd (fold_left init_node nodes (g, deg))) /\
    Stateful.frame n h h'.
Proof.
  induction nodes as [|node nodes IH]; intros h gd g deg T.
  - exists h, gd. split; [reflexivity|]. split; [exact T | apply frame_refl].
  - destruct (init_node_sim node T) as (h1 & gd1 & E1 & T1 & F1).
    destruct (IH _ _ _ _ T1) as (h2 & gd2 & E2 & T2 & F2).
    exists h2, gd2. split; [|split].
    + cbn [Stateful.for_each]. erewrite run_bind by exact E1. exact E2.
    + exact T2.
    + now apply frame_trans with h1.
Qed.

Lemma add_edges_sim n ga da gd edges : forall h g deg,
  Stateful.tables_at n h ga da gd g deg ->
  exists h' g' deg',
    foldM add_edge edges (g, deg) = Return (g', deg') /\
    Stateful.for_each (Stateful.add_edge ga da) edges h =
      Stateful.Ran (Return tt) h' /\
    Stateful.tables_at n h' ga da gd g' deg' /\
    Stateful.frame n h h'.
Proof.
  induction edges as [|e edges IH]; intros h g deg T.
  - exists h, g, deg. split; [reflexivity|]. split; [reflexivity|].
    split; [exact T | apply frame_refl].
  - destruct (add_edge_sim e T) as (h1 & g1 & d1 & P1 & E1 & T1 & F1).
    destruct (IH _ _ _ T1) as (h2 & g2 & d2 & P2 & E2 & T2 & F2).
    exists h2, g2, d2. split; [|split; [|split]].
    + cbn [foldM]. rewrite P1. cbn [bind]. exact P2.
    + cbn [Stateful.for_each]. erewrite run_bind by exact E1. exact E2.
    + exact T2.
    + now apply frame_trans with h1.
Qed.

Lemma relax_sim n h ga da qa gd g deg q v :
  Stateful.work_at n h ga da qa gd g deg q ->
  exists h' deg' q',
    relax (deg, q) v = Return (deg', q') /\
    Stateful.relax da qa v h = Stateful.Ran (Return tt) h' /\
    Stateful.work_at n h' ga da qa gd g deg' q' /\
    Stateful.frame n h h'.
Proof.
  intros W. pose proof W as ((G & Hda & Oda & Hd) & Hqa & Oqa & Hqd & Hq).
  pose proof (nth_error_lt _ _ Hd) as Ld.
  pose proof (nth_error_lt _ _ Hq) as Lq.
  unfold relax, Stateful.relax.
  run_by run_load_int_dict.
  destruct (Dict.contains deg v) eqn:C.
  - destruct (DictFacts.getitem_contains _ _ C) as (d0 & Gd & Ed).
    rewrite Gd. cbn [bind].
    set (deg' := Dict.set deg v (d0 - 1)%Z).
    assert (Gd' : Dict.getitem deg' v = Return (d0 - 1)%Z).
    { unfold Dict.getitem, deg'. now rewrite DictFacts.get_set_same. }
    rewrite Gd'. cbn [bind].
    set (h1 := Stateful.update h da (Stateful.IntDict deg')).
    assert (L1 : length h1 = length h) by apply update_length.
    assert (Hd1 : nth_error h1 da = Some (Stateful.IntDict deg'))
      by (unfold h1; now apply nth_error_update_same).
    assert (Hq1 : nth_error h1 qa = Some (Stateful.StrList q)).
    { unfold h1. rewrite nth_error_update_other by congruence. exact Hq. }
    assert (G1 : Stateful.graph_at n h1 ga gd g)
      by (unfold h1; now apply graph_at_update).
    erewrite run_bind by (apply run_lift; reflexivity). cbv beta.
    erewrite run_bind by (apply run_store; exact Ld). cbv beta.
    fold deg'. fold h1.
    run_by run_load_int_dict.
    erewrite run_bind by (apply run_lift; exact Gd'). cbv beta.
    destruct (d0 - 1 =? 0)%Z.
    + set (h2 := Stateful.update h1 qa (Stateful.StrList (q ++ [v]))).
      exists h2, deg', (q ++ [v]). split; [reflexivity|]. split; [|split].
      * run_by run_load_strs. apply run_store. lia.
      * split; [split; [|split; [exact Hda|split; [exact Oda|]]]|].
        -- unfold h2. now apply graph_at_update.
        -- unfold h2. rewrite nth_error_update_other by congruence.
           exact Hd1.
        -- split; [exact Hqa|]. split; [exact Oqa|]. split; [exact Hqd|].
           unfold h2. apply nth_error_update_same. lia.
      * apply frame_trans with h1; apply frame_update; assumption.
    + exists h1, deg', q. split; [reflexivity|]. split; [reflexivity|].
      split; [|apply frame_update; assumption].
      split; [split; [exact G1|split; [exact Hda|split; [exact Oda|]]]|].
      * exact Hd1.
      * split; [exact Hqa|]. split; [exact Oqa|]. split; [exact Hqd|].
        exact Hq1.
  - exists h, deg, q. split; [reflexivity|]. split; [reflexivity|].
    split; [exact W | apply frame_refl].
Qed.

Lemma relax_all_sim n ga da qa gd g neighbors : forall h deg q,
  Stateful.work_at n h ga da qa gd g deg q ->
  exists h' deg' q',
    foldM relax neighbors (deg, q) = Return (deg', q') /\
    Stateful.for_each (Stateful.relax da qa) neighbors h =
      Stateful.Ran (Return tt) h' /\
    Stateful.work_at n h' ga da qa gd g deg' q' /\
    Stateful.frame n h h'.
Proof.
  induction neighbors as [|v neighbors IH]; intros h deg q W.
  - exists h, deg, q. split; [reflexivity|]. split; [reflexivity|].
    split; [exact W | apply frame_refl].
  - destruct (relax_sim v W) as (h1 & d1 & q1 & P1 & E1 & W1 & F1).
    destruct (IH _ _ _ W1) as (h2 & d2 & q2 & P2 & E2 & W2 & F2).
    exists h2, d2, q2. split; [|split; [|split]].
    + cbn [foldM]. rewrite P1. cbn [bind]. exact P2.
    + cbn [Stateful.for_each]. erewrite run_bind by exact E1. exact E2.
    + exact W2.
    + now apply frame_trans with h1.
Qed.

Lemma get_same_keys_None {V W : Type} (d : Dict.t V) (d' : Dict.t W) k :
  Dict.keys d = Dict.keys d' -> Dict.get d k = None -> Dict.get d' k = None.
Proof.
  intros E H. apply DictFacts.get_None. rewrite <- E.
  now apply DictFacts.get_None.
Qed.

Lemma kahn_loop_sim n ga da qa gd g fuel : forall h deg q visited_count,
  Stateful.work_at n h ga da qa gd g deg q ->
  exists h',
    Stateful.kahn_loop fuel ga da qa visited_count h =
      Stateful.Ran (kahn_loop fuel g deg q visited_count) h' /\
    Stateful.frame n h h'.
Proof.
  induction fuel as [|fuel IH]; intros h deg q visited W;
    pose proof W as ((G & Hda & Oda & Hd) & Hqa & Oqa & Hqd & Hq).
  - exists h. split; [|apply frame_refl].
    cbn [Stateful.kahn_loop]. run_by run_load_strs.
    destruct q; reflexivity.
  - destruct q as [|u rest].
    + exists h. split; [|apply frame_refl].
      cbn [Stateful.kahn_loop]. run_by run_load_strs. reflexivity.
    + pose proof (nth_error_lt _ _ Hd) as Ld.
      pose proof (nth_error_lt _ _ Hq) as Lq.
      pose proof G as (Hn & Hg & HK & Hcells & Hinj).
      pose proof (nth_error_lt _ _ Hg) as Lg.
      set (h1 := Stateful.update h qa (Stateful.StrList rest)).
      set (h2 := h1 ++ [Stateful.StrList []]).
      assert (L1 : length h1 = length h) by apply update_length.
      assert (G2 : Stateful.graph_at n h2 ga gd g).
      { unfold h2, h1. apply graph_at_snoc. now apply graph_at_update. }
      assert (W2 : Stateful.work_at n h2 ga da qa gd g deg rest).
      { split; [split; [exact G2|split; [exact Hda|split; [exact Oda|]]]|].
        - unfold h2. rewrite nth_error_snoc_old by lia.
          unfold h1. rewrite nth_error_update_other by congruence. exact Hd.
        - split; [exact Hqa|]. split; [exact Oqa|]. split; [exact Hqd|].
          unfold h2. rewrite nth_error_snoc_old by lia.
          unfold h1. now apply nth_error_update_same. }
      assert (Hnb : nth_error h2 (Dict.get_default gd u (length h1)) =
                    Some (Stateful.StrList (Dict.get_default g u []))).
      { unfold Dict.get_default at 1.
        destruct (Dict.get gd u) as [a|] eqn:Ea.
        - destruct G2 as (_ & _ & _ & Hcells2 & _).
          destruct (Hcells2 u a Ea) as (_ & _ & l & Hl & Hc).
          unfold Dict.get_default. now rewrite Hl.
        - unfold Dict.get_default.
          rewrite (get_same_keys_None gd g u HK Ea).
          unfold h2. apply nth_error_snoc_new. }
      destruct (@relax_all_sim n ga da qa gd g (Dict.get_default g u [])
                  h2 deg rest W2) as (h3 & d3 & q3 & P3 & E3 & W3 & F3).
      destruct (IH h3 d3 q3 (visited + 1)%Z W3) as (h4 & E4 & F4).
      exists h4. split.
      * cbn [Stateful.kahn_loop kahn_loop]. run_by run_load_strs.
        cbv iota.
        erewrite run_bind by (apply run_store; exact Lq). cbv beta.
        fold h1.
        erewrite run_bind by apply run_alloc. cbv beta. fold h2.
        erewrite run_bind
          by (apply run_load_list_dict; destruct G2 as (_ & H & _); exact H).
        cbv beta.
        erewrite run_bind by (apply run_load_strs; exact Hnb). cbv beta.
        erewrite run_bind by exact E3. cbv beta.
        rewrite P3. cbn [bind]. exact E4.
      * apply frame_trans with h1; [apply frame_update; exact Hqa|].
        apply frame_trans with h2; [apply frame_snoc; lia|].
        now apply frame_trans with h3.
Qed.

Lemma frame_load n h h' a c :
  Stateful.frame n h h' -> a < n -> nth_error h a = Some c ->
  nth_error h' a = Some c.
Proof.
  intros [_ F] Ha E. now rewrite F.
Qed.

Lemma is_dag_sim h na ea nodes edges :
  nth_error h na = Some (Stateful.NodeList nodes) ->
  nth_error h ea = Some (Stateful.EdgeList edges) ->
  exists h',
    Stateful.is_dag na ea h = Stateful.Ran (is_dag nodes edges) h' /\
    Stateful.frame (length h) h h'.
Proof.
  intros Hn He.
  pose proof (nth_error_lt _ _ Hn) as Ln.
  pose proof (nth_error_lt _ _ He) as Le.
  unfold Stateful.is_dag, is_dag, is_dag_fuel.
  run_by run_load_nodes.
  destruct (len nodes =? 0)%Z.
  { exists h. split; [reflexivity | apply frame_refl]. }
  run_by run_load_edges.
  destruct (len edges =? 0)%Z.
  { exists h. split; [reflexivity | apply frame_refl]. }
  set (n := length h).
  set (h1 := h ++ [Stateful.ListDict Dict.empty]).
  set (h2 := h1 ++ [Stateful.IntDict Dict.empty]).
  assert (L1 : length h1 = S n)
    by (unfold h1; rewrite length_app; simpl; lia).
  assert (L2 : length h2 = S (S n))
    by (unfold h2; rewrite length_app; simpl; lia).
  assert (F2 : Stateful.frame n h h2).
  { apply frame_trans with h1; apply frame_snoc; lia. }
  assert (T2 : Stateful.tables_at n h2 n (S n) Dict.empty Dict.empty
                 Dict.empty).
  { split; [|split; [lia|split]].
    - split; [lia|]. split.
      + unfold h2. rewrite nth_error_snoc_old by lia.
        unfold h1. apply nth_error_snoc_new.
      + split; [reflexivity|]. split; intros; discriminate.
    - split; [lia | intros k; discriminate].
    - unfold h2. rewrite <- L1. apply nth_error_snoc_new. }
  destruct (@init_nodes_sim n n (S n) nodes h2 _ _ _ T2)
    as (h3 & gd3 & E3 & T3 & F3).
  destruct (@add_edges_sim n n (S n) gd3 edges h3 _ _ T3)
    as (h4 & g4 & d4 & P4 & E4 & T4 & F4).
  rewrite <- surjective_pairing in P4.
  pose proof T4 as (G4 & _ & _ & Hd4).
  pose proof (nth_error_lt _ _ Hd4) as Ld4.
  set (h5 := h4 ++ [Stateful.StrList (zero_in_degree d4)]).
  assert (W5 : Stateful.work_at n h5 n (S n) (length h4) gd3 g4 d4
                 (zero_in_degree d4)).
  { destruct F3 as [L3 _]. destruct F4 as [L4 _].
    destruct T4 as (G & Hda & Oda & Hd).
    split; [split; [|split; [exact Hda|split; [exact Oda|]]]|].
    - unfold h5. now apply graph_at_snoc.
    - unfold h5. rewrite nth_error_snoc_old; assumption.
    - split; [lia|]. split; [eapply outside_fresh; exact G|].
      split; [lia|]. unfold h5. apply nth_error_snoc_new. }
  destruct (@kahn_loop_sim n n (S n) (length h4) gd3 g4 (length nodes)
              h5 d4 (zero_in_degree d4) 0%Z W5) as (h6 & E6 & F6).
  assert (F5 : Stateful.frame n h h5).
  { apply frame_trans with h2; [exact F2|].
    apply frame_trans with h3; [exact F3|].
    apply frame_trans with h4; [exact F4|].
    apply frame_snoc. destruct F3, F4. lia. }
  assert (F6' : Stateful.frame n h h6) by now apply frame_trans with h5.
  exists h6. split; [|exact F6'].
  erewrite run_bind by apply run_alloc. cbv beta. fold n. fold h1.
  erewrite run_bind by apply run_alloc. cbv beta. rewrite L1. fold h2.
  erewrite run_bind
    by (apply run_load_nodes; eapply frame_load; [exact F2|exact Ln|exact Hn]).
  cbv beta.
  erewrite run_bind by exact E3. cbv beta.
  erewrite run_bind
    by (apply run_load_edges; eapply frame_load;
        [apply frame_trans with h2; [exact F2|exact F3]|exact Le|exact He]).
  cbv beta.
  erewrite run_bind by exact E4. cbv beta.
  run_by run_load_int_dict.
  erewrite run_bind by apply run_alloc. cbv beta. fold h5.
  unfold count_visited. rewrite P4. cbn [bind].
  unfold Stateful.bindM at 1. rewrite E6.
  destruct (kahn_loop (length nodes) g4 d4 (zero_in_degree d4) 0)
    as [v| |]; cbn [bind]; try reflexivity.
  erewrite run_bind
    by (apply run_load_nodes; eapply frame_load; [exact F6'|exact Ln|exact Hn]).
  reflexivity.
Qed.

Lemma check_edges_sim h ia ids edges :
  nth_error h ia = Some (Stateful.StrSet ids) ->
  Stateful.for_each (Stateful.check_edge ia) edges h =
    Stateful.Ran (check_references ids edges) h.
Proof.
  intros Hi. induction edges as [|e edges IH]; [reflexivity|].
  cbn [Stateful.for_each check_references].
  unfold Stateful.bindM at 1. unfold Stateful.check_edge.
  run_by run_load_set.
  destruct (negb (set_mem string_dec (source e) ids)); [reflexivity|].
  run_by run_load_set.
  destruct (negb (set_mem string_dec (target e) ids)); [reflexivity|].
  exact IH.
Qed.

Lemma parse_pipeline_body_sim h r request :
  Stateful.holds h r request ->
  exists h',
    Stateful.parse_pipeline_body r h =
      Stateful.Ran (parse_pipeline_body request) h' /\
    Stateful.frame (length h) h h'.
Proof.
  intros [Hn He].
  pose proof (nth_error_lt _ _ Hn) as Ln.
  pose proof (nth_error_lt _ _ He) as Le.
  unfold Stateful.parse_pipeline_body, parse_pipeline_body.
  run_by run_load_nodes.
  set (ids := node_id_set (nodes request)).
  set (h1 := h ++ [Stateful.StrSet ids]).
  assert (F1 : Stateful.frame (length h) h h1) by (apply frame_snoc; lia).
  assert (L1 : length h <= length h1) by (destruct F1; assumption).
  assert (Hn1 : nth_error h1 (Stateful.nodes_ref r) =
                Some (Stateful.NodeList (nodes request)))
    by (eapply frame_load; eassumption).
  assert (He1 : nth_error h1 (Stateful.edges_ref r) =
                Some (Stateful.EdgeList (edges request)))
    by (eapply frame_load; eassumption).
  erewrite run_bind by apply run_alloc. cbv beta. fold h1.
  run_by run_load_edges.
  unfold Stateful.bindM at 1.
  rewrite (@check_edges_sim h1 (length h) ids (edges request))
    by (unfold h1; apply nth_error_snoc_new).
  destruct (check_references ids (edges request)) as [[]| |]; cbn [bind];
    try (exists h1; split; [reflexivity | exact F1]).
  destruct (@is_dag_sim h1 _ _ _ _ Hn1 He1) as (h2 & E2 & F2).
  assert (F2' : Stateful.frame (length h) h h2).
  { apply frame_trans with h1; [exact F1|].
    eapply frame_weaken; [|exact F2]. exact L1. }
  exists h2. split; [|exact F2'].
  unfold Stateful.bindM at 1. rewrite E2.
  destruct (is_dag (nodes request) (edges request)) as [b| |]; cbn [bind];
    try reflexivity.
  erewrite run_bind
    by (apply run_load_nodes; eapply frame_load; [exact F2'|exact Ln|exact Hn]).
  cbv beta.
  erewrite run_bind
    by (apply run_load_edges; eapply frame_load; [exact F2'|exact Le|exact He]).
  reflexivity.
Qed.

Lemma parse_pipeline_sim h r request :
  Stateful.holds h r request ->
  exists h',
    Stateful.parse_pipeline r h = Stateful.Ran (parse_pipeline request) h' /\
    Stateful.frame (length h) h h'.
Proof.
  intros H. destruct (parse_pipeline_body_sim H) as (h' & E & F).
  exists h'. split; [|exact F].
  unfold Stateful.parse_pipeline, parse_pipeline. rewrite E.
  destruct (parse_pipeline_body request) as [resp|[k|c d]|]; reflexivity.
Qed.

Lemma frame_holds h h' r request :
  Stateful.frame (length h) h h' ->
  Stateful.holds h r request -> Stateful.holds h' r request.
Proof.
  intros F [Hn He]. split.
  - eapply frame_load; [exact F | eapply nth_error_lt; eauto | exact Hn].
  - eapply frame_load; [exact F | eapply nth_error_lt; eauto | exact He].
Qed.

(** C7.  The handler, run on the store of Python objects, is a function of
    the submitted node and edge lists alone.  Two invocations on the same
    request, from any two stores and wherever the request lies in them,
    give the same outcome, value or error: the one of [parse_pipeline].
    Each leaves every object that existed before the call as it was, the
    submitted lists included, so the request is still there for a later
    call; all writes go to objects the call itself created. *)
Theorem parse_pipeline_deterministic (request : PipelineRequest)
    (r1 r2 : Stateful.request_ref) (h1 h2 : Stateful.heap) :
  Stateful.holds h1 r1 request ->
  Stateful.holds h2 r2 request ->
  exists h1' h2',
    Stateful.parse_pipeline r1 h1 =
      Stateful.Ran (parse_pipeline request) h1' /\
    Stateful.parse_pipeline r2 h2 =
      Stateful.Ran (parse_pipeline request) h2' /\
    Stateful.frame (length h1) h1 h1' /\
    Stateful.frame (length h2) h2 h2' /\
    Stateful.holds h1' r1 request /\
    Stateful.holds h2' r2 request.
Proof.
  intros H1 H2.
  destruct (parse_pipeline_sim H1) as (h1' & E1 & F1).
  destruct (parse_pipeline_sim H2) as (h2' & E2 & F2).
  exists h1', h2'. split; [exact E1|]. split; [exact E2|].
  split; [exact F1|]. split; [exact F2|]. split.
  - eapply frame_holds; [exact F1 | exact H1].
  - eapply frame_holds; [exact F2 | exact H2].
Qed.

Lemma parse_pipeline_deterministic_witness :
  exists h1' h2',
    Stateful.parse_pipeline
      {| Stateful.nodes_ref := 0; Stateful.edges_ref := 1 |}
      [Stateful.NodeList (nodes plain_request);
       Stateful.EdgeList (edges plain_request)] =
      Stateful.Ran (parse_pipeline plain_request) h1' /\
    Stateful.parse_pipeline
      {| Stateful.nodes_ref := 3; Stateful.edges_ref := 1 |}
      [Stateful.StrList ["left"%string; "over"%string];
       Stateful.EdgeList (edges plain_request);
       Stateful.IntDict [("A"%string, 7%Z)];
       Stateful.NodeList (nodes plain_request)] =
      Stateful.Ran (parse_pipeline plain_request) h2' /\
    Stateful.frame 2
      [Stateful.NodeList (nodes plain_request);
       Stateful.EdgeList (edges plain_request)] h1' /\
    Stateful.frame 4
      [Stateful.StrList ["left"%string; "over"%string];
       Stateful.EdgeList (edges plain_request);
       Stateful.IntDict [("A"%string, 7%Z)];
       Stateful.NodeList (nodes plain_request)] h2' /\
    Stateful.holds h1'
      {| Stateful.nodes_ref := 0; Stateful.edges_ref := 1 |} plain_request /\
    Stateful.holds h2'
      {| Stateful.nodes_ref := 3; Stateful.edges_ref := 1 |} plain_request.
Proof.
  apply (@parse_pipeline_deterministic plain_request
           {| Stateful.nodes_ref := 0; Stateful.edges_ref := 1 |}
           {| Stateful.nodes_ref := 3; Stateful.edges_ref := 1 |}
           [Stateful.NodeList (nodes plain_request);
            Stateful.EdgeList (edges plain_request)]
           [Stateful.StrList ["left"%string; "over"%string];
            Stateful.EdgeList (edges plain_request);
            Stateful.IntDict [("A"%string, 7%Z)];
            Stateful.NodeList (nodes plain_request)]).
  - split; reflexivity.
  - split; reflexivity.
Defined.
